(** * SIMDVector: the aligned container, its two iterators and the
      lane-wise reduction of the demonstration driver

    Shallow embedding of [du1simd.hpp] (the iterators [simd_vector_iterator]
    and [simd_vector_simd_iterator], the container [simd_vector]) and of the
    parts of [du1test.cpp] that consume them (the capability structs
    [simd<float,float>] and [simd<float,__m128>], [tester::sum] and
    [tester::simd_sum]).

    Conventions
    - pointers are byte addresses in [Z], [nullptr] is [0];
    - [std::size_t] and [std::ptrdiff_t] are [bits]-bit integers, unsigned
      and two's-complement signed; every operation whose result can leave
      the range of its type is followed by the wrap-around ([to_size_t],
      [to_ptrdiff_t]); quotients and remainders by [k] cannot;
    - C++ [/] and [%] on signed operands truncate towards zero: [Z.quot] and
      [Z.rem];
    - [float] arithmetic is idealised as an abstract element type with an
      addition and a zero ([Elem]); the exact statements are proved for
      element types whose addition is a commutative monoid ([ElemLaws]),
      integers among them. *)

From Stdlib Require Import ZArith List Lia Bool.
Import ListNotations.
Local Open Scope Z_scope.

(** ** Machine integers *)

Module Int.

Definition to_size_t (bits z : Z) : Z := z mod 2 ^ bits.

Definition to_ptrdiff_t (bits z : Z) : Z :=
  (z + 2 ^ (bits - 1)) mod 2 ^ bits - 2 ^ (bits - 1).

Definition PTRDIFF_MAX (bits : Z) : Z := 2 ^ (bits - 1) - 1.
Definition PTRDIFF_MIN (bits : Z) : Z := - 2 ^ (bits - 1).
Definition SIZE_MAX (bits : Z) : Z := 2 ^ bits - 1.

End Int.

(** ** Outcomes: a value, or the reason the run has no defined value *)

Inductive fault : Type :=
| ElementOutOfBounds (index : Z)   (* [base[i]] outside the allocated cells *)
| LaneOutOfBounds (lane : Z)       (* [*bb] outside the allocated lanes *)
| ForeignPointer                   (* iterator over another buffer *)
| AssertionFailed                  (* a failed [assert] *)
| OutOfFuel.                       (* the loop budget of the model ran out *)

Inductive outcome (X : Type) : Type :=
| Ok (x : X)
| Fault (f : fault).
Arguments Ok {X} x.
Arguments Fault {X} f.

Definition bind {X Y : Type} (c : outcome X) (f : X -> outcome Y) : outcome Y :=
  match c with
  | Ok x => f x
  | Fault e => Fault e
  end.

Notation "x <- c ;; k" := (bind c (fun x => k))
  (at level 61, c at next level, right associativity).

Definition assert (b : bool) : outcome unit :=
  if b then Ok tt else Fault AssertionFailed.

(** ** Iterators *)

(** [simd_vector_simd_iterator<T,S>]: the lane cursor. *)
Record simd_vector_simd_iterator : Type := simd_it {
  sbase : Z;
  soffset : Z
}.

(** [simd_vector_iterator<T,S>]: the element cursor. *)
Record simd_vector_iterator : Type := iterator {
  base : Z;
  offset : Z
}.

Section Iterators.

(** Width of [std::ptrdiff_t] / [std::size_t], [sizeof(T)], [sizeof(S)]. *)
Variables (bits sizeof_T sizeof_S : Z).

(** [int k = sizeof(S) / sizeof(T);] *)
Definition lane_width : Z := sizeof_S / sizeof_T.

Definition lower_block (it : simd_vector_iterator) : simd_vector_simd_iterator :=
  let k := lane_width in
  simd_it (base it) (Z.quot (offset it) k).

Definition upper_block (it : simd_vector_iterator) : simd_vector_simd_iterator :=
  let k := lane_width in
  simd_it (base it) (Int.to_ptrdiff_t bits (Z.quot (offset it) k + 1)).

Definition lower_offset (it : simd_vector_iterator) : Z :=
  let k := lane_width in
  Z.rem (offset it) k.

Definition upper_offset (it : simd_vector_iterator) : Z :=
  let k := lane_width in
  Z.rem (offset it) k - (k - 1).

(** Element iterator operators. *)
Definition it_eq (a v : simd_vector_iterator) : bool :=
  (base a =? base v) && (offset a =? offset v).
Definition it_neq (a v : simd_vector_iterator) : bool :=
  negb (base a =? base v) || negb (offset a =? offset v).
Definition it_lt (a v : simd_vector_iterator) : bool :=
  base a + offset a * sizeof_T <? base v + offset v * sizeof_T.
Definition it_le (a v : simd_vector_iterator) : bool :=
  base a + offset a * sizeof_T <=? base v + offset v * sizeof_T.
Definition it_incr (a : simd_vector_iterator) : simd_vector_iterator :=
  iterator (base a) (Int.to_ptrdiff_t bits (offset a + 1)).
Definition it_decr (a : simd_vector_iterator) : simd_vector_iterator :=
  iterator (base a) (Int.to_ptrdiff_t bits (offset a - 1)).
Definition it_add_assign (a : simd_vector_iterator) (n : Z) : simd_vector_iterator :=
  iterator (base a) (Int.to_ptrdiff_t bits (offset a + n)).
Definition it_sub_assign (a : simd_vector_iterator) (n : Z) : simd_vector_iterator :=
  iterator (base a) (Int.to_ptrdiff_t bits (offset a - n)).
Definition it_diff (a v : simd_vector_iterator) : Z :=
  Int.to_ptrdiff_t bits (offset a - offset v).
(** [operator+(a, b)] and [operator-(a, b)]: [return a += b;] *)
Definition it_plus (a : simd_vector_iterator) (b : Z) := it_add_assign a b.
Definition it_minus (a : simd_vector_iterator) (b : Z) := it_sub_assign a b.

(** Lane iterator operators. *)
Definition sit_eq (a v : simd_vector_simd_iterator) : bool :=
  (sbase a =? sbase v) && (soffset a =? soffset v).
Definition sit_neq (a v : simd_vector_simd_iterator) : bool :=
  negb (sbase a =? sbase v) || negb (soffset a =? soffset v).
Definition sit_lt (a v : simd_vector_simd_iterator) : bool :=
  sbase a + soffset a * sizeof_S <? sbase v + soffset v * sizeof_S.
Definition sit_incr (a : simd_vector_simd_iterator) : simd_vector_simd_iterator :=
  simd_it (sbase a) (Int.to_ptrdiff_t bits (soffset a + 1)).
Definition sit_decr (a : simd_vector_simd_iterator) : simd_vector_simd_iterator :=
  simd_it (sbase a) (Int.to_ptrdiff_t bits (soffset a - 1)).
Definition sit_add_assign (a : simd_vector_simd_iterator) (n : Z) :=
  simd_it (sbase a) (Int.to_ptrdiff_t bits (soffset a + n)).
Definition sit_sub_assign (a : simd_vector_simd_iterator) (n : Z) :=
  simd_it (sbase a) (Int.to_ptrdiff_t bits (soffset a - n)).
Definition sit_diff (a v : simd_vector_simd_iterator) : Z :=
  Int.to_ptrdiff_t bits (soffset a - soffset v).

End Iterators.

(** Default constructors: [base(nullptr), offset(0)]. *)
Definition iterator_default : simd_vector_iterator := iterator 0 0.
Definition simd_it_default : simd_vector_simd_iterator := simd_it 0 0.

(** ** Element types *)

(** What the reduction needs from the element type [T]: the literal [0] and
    [operator+].  The driver instantiates [T = float]. *)
Class Elem (A : Type) : Type := {
  ezero : A;
  eadd : A -> A -> A
}.

(** The laws under which lane-wise and element-wise folds can be compared
    exactly (integer element types satisfy them, also with wrap-around). *)
Class ElemLaws (A : Type) `{Elem A} : Prop := {
  eadd_assoc : forall x y z : A, eadd x (eadd y z) = eadd (eadd x y) z;
  eadd_comm : forall x y : A, eadd x y = eadd y x;
  eadd_0_l : forall x : A, eadd ezero x = x
}.

#[export] Instance Z_Elem : Elem Z := {| ezero := 0; eadd := Z.add |}.

(** ** Memory seen through the two iterator types *)

(** The cells of type [T] that are allocated from the aligned start on. *)
Record memory (A : Type) : Type := mk_memory {
  m_base : Z;
  m_cells : list A
}.
Arguments mk_memory {A} m_base m_cells.
Arguments m_base {A} m.
Arguments m_cells {A} m.

(** ** The vector-operation capability [du1simd::simd<T,S>] *)

Module du1simd.

(** The members of [simd<value_type, simd_carrier_type>] used by the
    reduction ([sub] and [mul] are not), and the view of [k] consecutive
    cells as one carrier value that [reinterpret_cast<S*>] gives
    ([reinterpret], [cells_of]). *)
Class simd (A S : Type) : Type := {
  carrier_lanes : nat;
  reinterpret : list A -> option S;
  cells_of : S -> list A;
  broadcast : A -> S;
  zero : S;
  add : S -> S -> S;
  sum : S -> A;
  mask_lower : S -> Z -> outcome S;
  mask_upper : S -> Z -> outcome S;
  mask_both : S -> Z -> Z -> outcome S
}.

(** *** [simd<float, float>] *)
Section Scalar.
Context {A : Type} `{Elem A}.

Definition scalar_reinterpret (l : list A) : option A :=
  match l with
  | [x] => Some x
  | _ => None
  end.
Definition scalar_broadcast (x : A) : A := x.
Definition scalar_zero : A := ezero.
Definition scalar_add (a b : A) : A := eadd a b.
Definition scalar_sum (a : A) : A := a.
Definition scalar_mask_lower (a : A) (lgap : Z) : outcome A :=
  _ <- assert (lgap =? 0) ;; Ok a.
Definition scalar_mask_upper (a : A) (ugap : Z) : outcome A :=
  _ <- assert (ugap =? 0) ;; Ok a.
Definition scalar_mask_both (a : A) (lgap ugap : Z) : outcome A :=
  _ <- assert (lgap =? 0) ;;
  _ <- assert (ugap =? 0) ;;
  Ok a.
End Scalar.

#[global] Instance simd_scalar (A : Type) `{Elem A} : simd A A := {|
  carrier_lanes := 1;
  reinterpret := scalar_reinterpret;
  cells_of := fun a => [a];
  broadcast := scalar_broadcast;
  zero := scalar_zero;
  add := scalar_add;
  sum := scalar_sum;
  mask_lower := scalar_mask_lower;
  mask_upper := scalar_mask_upper;
  mask_both := scalar_mask_both
|}.

(** *** [simd<float, __m128>] *)

(** Four packed values, element 0 first. *)
Record m128 (A : Type) : Type := mk_m128 { e0 : A; e1 : A; e2 : A; e3 : A }.
Arguments mk_m128 {A} e0 e1 e2 e3.
Arguments e0 {A} m.
Arguments e1 {A} m.
Arguments e2 {A} m.
Arguments e3 {A} m.

(** [_mm_set_epi32(i3, i2, i1, i0)]: the last argument is element 0. *)
Definition _mm_set_epi32 (i3 i2 i1 i0 : Z) : m128 Z := mk_m128 i0 i1 i2 i3.

Section Packed.
Context {A : Type} `{Elem A}.

(** [_mm_and_ps] against a mask whose elements are all-ones ([-1]) or
    zero: the element is kept or becomes the zero of [A]. *)
Definition and_elem (x : A) (mask : Z) : A := if mask =? -1 then x else ezero.
Definition _mm_and_ps (a : m128 A) (mask : m128 Z) : m128 A :=
  mk_m128 (and_elem (e0 a) (e0 mask)) (and_elem (e1 a) (e1 mask))
          (and_elem (e2 a) (e2 mask)) (and_elem (e3 a) (e3 mask)).
Definition _mm_add_ps (a b : m128 A) : m128 A :=
  mk_m128 (eadd (e0 a) (e0 b)) (eadd (e1 a) (e1 b))
          (eadd (e2 a) (e2 b)) (eadd (e3 a) (e3 b)).
Definition _mm_hadd_ps (a b : m128 A) : m128 A :=
  mk_m128 (eadd (e0 a) (e1 a)) (eadd (e2 a) (e3 a))
          (eadd (e0 b) (e1 b)) (eadd (e2 b) (e3 b)).
Definition _mm_setzero_ps : m128 A := mk_m128 ezero ezero ezero ezero.

(** [mask_data::mask_data()] *)
Definition lmask_ : list (m128 Z) :=
  [ _mm_set_epi32 (-1) (-1) (-1) (-1);
    _mm_set_epi32 (-1) (-1) (-1) 0;
    _mm_set_epi32 (-1) (-1) 0 0;
    _mm_set_epi32 (-1) 0 0 0 ].
Definition umask_ : list (m128 Z) :=
  [ _mm_set_epi32 0 0 0 (-1);
    _mm_set_epi32 0 0 (-1) (-1);
    _mm_set_epi32 0 (-1) (-1) (-1);
    _mm_set_epi32 (-1) (-1) (-1) (-1) ].
Definition mask_at (table : list (m128 Z)) (i : Z) : m128 Z :=
  nth (Z.to_nat i) table (_mm_set_epi32 0 0 0 0).

Definition packed_reinterpret (l : list A) : option (m128 A) :=
  match l with
  | [a; b; c; d] => Some (mk_m128 a b c d)
  | _ => None
  end.
Definition packed_cells (a : m128 A) : list A := [e0 a; e1 a; e2 a; e3 a].
Definition packed_broadcast (x : A) : m128 A := mk_m128 x x x x.
Definition packed_sum (a : m128 A) : A :=
  let b := _mm_hadd_ps a a in
  let c := _mm_hadd_ps b b in
  e0 c.
Definition packed_mask_lower (a : m128 A) (lgap : Z) : outcome (m128 A) :=
  _ <- assert (lgap >=? 0) ;;
  _ <- assert (lgap <? 4) ;;
  Ok (_mm_and_ps a (mask_at lmask_ lgap)).
Definition packed_mask_upper (a : m128 A) (ugap : Z) : outcome (m128 A) :=
  _ <- assert (ugap >? -4) ;;
  _ <- assert (ugap <=? 0) ;;
  Ok (_mm_and_ps a (mask_at umask_ (ugap + 3))).
Definition packed_mask_both (a : m128 A) (lgap ugap : Z) : outcome (m128 A) :=
  x <- packed_mask_lower a lgap ;; packed_mask_upper x ugap.
End Packed.

#[global] Instance simd_m128 (A : Type) `{Elem A} : simd A (m128 A) := {|
  carrier_lanes := 4;
  reinterpret := packed_reinterpret;
  cells_of := packed_cells;
  broadcast := packed_broadcast;
  zero := _mm_setzero_ps;
  add := _mm_add_ps;
  sum := packed_sum;
  mask_lower := packed_mask_lower;
  mask_upper := packed_mask_upper;
  mask_both := packed_mask_both
|}.

End du1simd.

(** ** Dereferencing *)

Section Deref.
Context {A S : Type} `{du1simd.simd A S}.
Variables (bits sizeof_T sizeof_S : Z).

(** [T& operator*() const { return base[offset]; }] *)
Definition deref (m : memory A) (it : simd_vector_iterator) : outcome A :=
  if base it =? m_base m then
    if 0 <=? offset it then
      match nth_error (m_cells m) (Z.to_nat (offset it)) with
      | Some x => Ok x
      | None => Fault (ElementOutOfBounds (offset it))
      end
    else Fault (ElementOutOfBounds (offset it))
  else Fault ForeignPointer.

(** [T& operator[](n) const { return base[offset + n]; }] *)
Definition index (m : memory A) (it : simd_vector_iterator) (n : Z) : outcome A :=
  deref m (iterator (base it) (Int.to_ptrdiff_t bits (offset it + n))).

(** [S& operator*() const { return base[offset]; }] on the lane iterator:
    the [k] cells that lane [offset] covers, read as one [S]. *)
Definition deref_lane (m : memory A) (it : simd_vector_simd_iterator) : outcome S :=
  let k := lane_width sizeof_T sizeof_S in
  let j := soffset it in
  if sbase it =? m_base m then
    if (0 <=? j) && (j * k + k <=? Z.of_nat (length (m_cells m))) then
      match du1simd.reinterpret
              (firstn (Z.to_nat k) (skipn (Z.to_nat (j * k)) (m_cells m))) with
      | Some x => Ok x
      | None => Fault (LaneOutOfBounds j)
      end
    else Fault (LaneOutOfBounds j)
  else Fault ForeignPointer.

End Deref.

(** ** The demonstration driver: [du1example::tester] *)

Module du1example.

Section Tester.
Context {A S : Type} `{Elem A} `{du1simd.simd A S}.
Variables (bits sizeof_T sizeof_S : Z).

(** The loop of [tester::sum]:
    [for (; b != e; ++ b) { acc = acc + * b; }] *)
Fixpoint sum_loop (fuel : nat) (m : memory A) (b e : simd_vector_iterator)
         (acc : A) : outcome A :=
  match fuel with
  | O => Fault OutOfFuel
  | Datatypes.S fuel' =>
      if it_neq b e then
        x <- deref m b ;;
        sum_loop fuel' m (it_incr bits b) e (eadd acc x)
      else Ok acc
  end.

(** [static float sum(simd_iterator b, simd_iterator e)] *)
Definition sum (fuel : nat) (m : memory A) (b e : simd_vector_iterator) : outcome A :=
  let acc := ezero in
  sum_loop fuel m b e acc.

(** The loop of [tester::simd_sum]:
    [for ( ++ bb; bb != ee; ++ bb) { acc = simd_op::add( acc, * bb); }];
    the cursor [bb] is returned with the accumulator because the code
    dereferences it after the loop. *)
Fixpoint simd_sum_loop (fuel : nat) (m : memory A)
         (bb ee : simd_vector_simd_iterator) (acc : S)
  : outcome (S * simd_vector_simd_iterator) :=
  match fuel with
  | O => Fault OutOfFuel
  | Datatypes.S fuel' =>
      if sit_neq bb ee then
        x <- deref_lane sizeof_T sizeof_S m bb ;;
        simd_sum_loop fuel' m (sit_incr bits bb) ee (du1simd.add acc x)
      else Ok (acc, bb)
  end.

(** [static float simd_sum(simd_iterator b, simd_iterator e)] *)
Definition simd_sum (fuel : nat) (m : memory A) (b e : simd_vector_iterator)
  : outcome A :=
  let bb := lower_block sizeof_T sizeof_S b in
  let ee := upper_block bits sizeof_T sizeof_S e in
  if sit_eq bb ee then Ok ezero
  else
    let ee := sit_decr bits ee in
    if sit_eq bb ee then
      x <- deref_lane sizeof_T sizeof_S m bb ;;
      y <- du1simd.mask_both x (lower_offset sizeof_T sizeof_S b)
                               (upper_offset sizeof_T sizeof_S e) ;;
      Ok (du1simd.sum y)
    else
      x <- deref_lane sizeof_T sizeof_S m bb ;;
      acc <- du1simd.mask_lower x (lower_offset sizeof_T sizeof_S b) ;;
      r <- simd_sum_loop fuel m (sit_incr bits bb) ee acc ;;
      let '(acc, bb) := r in
      x <- deref_lane sizeof_T sizeof_S m bb ;;
      y <- du1simd.mask_upper x (upper_offset sizeof_T sizeof_S e) ;;
      Ok (du1simd.sum (du1simd.add acc y)).

(** The element-wise traversal of [iterator_test]:
    [for (auto it = b; it != e; it++) { ... it ... }], as the list of
    offsets at which the body runs. *)
Fixpoint traverse (fuel : nat) (b e : simd_vector_iterator) : outcome (list Z) :=
  match fuel with
  | O => Fault OutOfFuel
  | Datatypes.S fuel' =>
      if it_neq b e then
        rest <- traverse fuel' (it_incr bits b) e ;;
        Ok (offset b :: rest)
      else Ok []
  end.

End Tester.

End du1example.

(** ** The container [simd_vector<T,S>] *)

(** The two branches of [#ifdef __GNUC__]. *)
Inductive build : Type :=
| GNUC      (* [aligned_alloc] / [free] *)
| Other.    (* [new T[]] + [std::align] / [delete] *)

(** What construction can throw: [alignment_exception] from the constructor
    body, [std::bad_alloc] from the [new] expression. *)
Inductive exn : Type :=
| alignment_exception
| bad_alloc.

(** The requests the constructor makes to the platform, in order. *)
Inductive call : Type :=
| call_aligned_alloc (alignment size : Z)
| call_new (count : Z)
| call_std_align (alignment size ptr space : Z).

Record simd_vector : Type := mk_simd_vector {
  k : Z;
  raw_block : Z;
  aligned_begin : Z;
  aligned_end : Z;
  content_size : Z
}.

(** [std::align(alignment, size, ptr, space)] as the C++ standard library
    specifies it ([ptr.align]): the first address at or after [ptr] that is a
    multiple of [alignment], provided [size] bytes from there still fit in
    the [space] bytes that start at [ptr]; [None] is the null return, which
    leaves [ptr] and [space] as they were. *)
Definition std_align (alignment size ptr space : Z) : option (Z * Z) :=
  let aligned := (ptr + alignment - 1) / alignment * alignment in
  let diff := aligned - ptr in
  if (size <=? space) && (diff <=? space - size)
  then Some (aligned, space - diff)
  else None.

Section Container.

Variables (bits sizeof_T sizeof_S : Z).

(** The platform's allocators: [aligned_alloc] returns [0] for [NULL];
    [operator_new count] is [new T[count]], [None] when it throws. *)
Variable aligned_alloc : Z -> Z -> Z.
Variable operator_new : Z -> option Z.

(** [auto rounded_count = (s % k == 0) ? s : ((s / k) + 1) * k;] *)
Definition rounded_count (s : Z) : Z :=
  let k := lane_width sizeof_T sizeof_S in
  if s mod k =? 0 then s else Int.to_size_t bits ((s / k + 1) * k).

(** [explicit simd_vector(std::size_t s)] *)
Definition simd_vector_ctor (b : build) (s : Z) : list call * (exn + simd_vector) :=
  let content_size := s in
  let k := lane_width sizeof_T sizeof_S in
  let rounded_count := rounded_count s in
  match b with
  | GNUC =>
      let size := Int.to_size_t bits (rounded_count * sizeof_T) in
      let raw_pointer := aligned_alloc sizeof_S size in
      ([call_aligned_alloc sizeof_S size],
       if raw_pointer =? 0 then inl alignment_exception
       else
         let aligned_begin := raw_pointer in
         let raw_block := raw_pointer in
         inr (mk_simd_vector k raw_block aligned_begin
                             (aligned_begin + content_size * sizeof_T) content_size))
  | Other =>
      let required_count := Int.to_size_t bits (rounded_count + k) in
      match operator_new required_count with
      | None => ([call_new required_count], inl bad_alloc)
      | Some raw_block =>
          let tmp_begin := raw_block in
          let buffer_size := Int.to_size_t bits (required_count * sizeof_T) in
          let size := Int.to_size_t bits (rounded_count * sizeof_T) in
          ([call_new required_count;
            call_std_align sizeof_S size tmp_begin buffer_size],
           match std_align sizeof_S size tmp_begin buffer_size with
           | None => inl alignment_exception
           | Some (tmp_begin, _) =>
               let aligned_begin := tmp_begin in
               inr (mk_simd_vector k raw_block aligned_begin
                                   (aligned_begin + content_size * sizeof_T)
                                   content_size)
           end)
      end
  end.

(** [iterator begin() { return iterator(aligned_begin, 0); }] *)
Definition begin_ (v : simd_vector) : simd_vector_iterator :=
  iterator (aligned_begin v) 0.

(** [iterator end() { return iterator(aligned_begin, content_size); }]:
    the [std::size_t] argument is converted to [difference_type]. *)
Definition end_ (v : simd_vector) : simd_vector_iterator :=
  iterator (aligned_begin v) (Int.to_ptrdiff_t bits (content_size v)).

(** [std::size_t size() { return content_size; }] *)
Definition size (v : simd_vector) : Z := content_size v.

End Container.

(** [void swap(self& other)]: the pair is ([*this], [other]) afterwards. *)
Definition swap (this other : simd_vector) : simd_vector * simd_vector :=
  (mk_simd_vector (k other) (raw_block other) (aligned_begin other)
                  (aligned_end other) (content_size other),
   mk_simd_vector (k this) (raw_block this) (aligned_begin this)
                  (aligned_end this) (content_size this)).

(** Move constructor [simd_vector(self&& v)]: the new container, then [v] as
    the constructor body leaves it. *)
Definition move_ctor (v : simd_vector) : simd_vector * simd_vector :=
  (mk_simd_vector (k v) (raw_block v) (aligned_begin v) (aligned_end v) (content_size v),
   mk_simd_vector (k v) 0 0 0 (content_size v)).

(** Move assignment [operator=(self&& v)]: [swap(v); return *this;] *)
Definition move_assign (this v : simd_vector) : simd_vector * simd_vector :=
  swap this v.

(** The allocations that are live and the log of the pointers released. *)
Record heap : Type := mk_heap {
  live : list Z;
  freed : list Z
}.

(** [free(p)] / [delete p]: nothing for a null pointer; releasing a pointer
    that is not a live allocation has no defined behaviour ([None]). *)
Definition release (p : Z) (h : heap) : option heap :=
  if p =? 0 then Some h
  else if existsb (Z.eqb p) (live h)
       then Some (mk_heap (remove Z.eq_dec p (live h)) (p :: freed h))
       else None.

(** [~simd_vector()]: [free(raw_block)] or [delete raw_block]. *)
Definition dtor (b : build) (v : simd_vector) (h : heap) : option heap :=
  match b with
  | GNUC => release (raw_block v) h
  | Other => release (raw_block v) h
  end.

(** Both containers of a move go out of scope, [x] first. *)
Definition destroy_both (b : build) (x y : simd_vector) (h : heap) : option heap :=
  match dtor b x h with
  | Some h' => dtor b y h'
  | None => None
  end.

(** A toy platform for concrete runs: every request succeeds at a fixed
    address. *)
Definition aligned_alloc_at (p : Z) : Z -> Z -> Z := fun _ _ => p.
Definition operator_new_at (p : Z) : Z -> option Z := fun _ => Some p.

(** ** Specification-side definitions *)

(** [static_assert(sizeof(S) % sizeof(T) == 0, ...)], together with the fact
    that sizes of object types are positive. *)
Definition compatible (sizeof_T sizeof_S : Z) : Prop :=
  0 < sizeof_T /\ 0 < sizeof_S /\ sizeof_S mod sizeof_T = 0.

(** [n] cells of [l] from index [lo] on. *)
Definition slice {A : Type} (lo n : Z) (l : list A) : list A :=
  firstn (Z.to_nat n) (skipn (Z.to_nat lo) l).

(** The plain element-by-element fold, [acc = acc + x] from [0]. *)
Definition esum {A : Type} `{Elem A} (l : list A) : A :=
  fold_left eadd l ezero.

(** The plain fold over the half-open range of offsets [[b, e)]. *)
Definition plain_fold {A : Type} `{Elem A} (m : memory A) (b e : Z) : A :=
  esum (slice b (e - b) (m_cells m)).

(** The offsets [0, 1, ..., n - 1]. *)
Definition offsets_upto (n : Z) : list Z :=
  map Z.of_nat (seq 0 (Z.to_nat n)).

(** What the reduction relies on in a capability struct: [k] cells make one
    carrier; [add] is element-wise and [sum] adds the elements up;
    [mask_lower] zeroes the first [lgap] elements, [mask_upper] keeps the
    elements up to index [ugap + (k - 1)] and zeroes the rest; [mask_both]
    is one after the other. *)
Class SimdLaws (A S : Type) `{Elem A} `{du1simd.simd A S} : Prop := {
  cells_length : forall a : S,
    length (du1simd.cells_of a) = du1simd.carrier_lanes;
  reinterpret_cells : forall l : list A,
    length l = du1simd.carrier_lanes ->
    exists x, du1simd.reinterpret l = Some x /\ du1simd.cells_of x = l;
  sum_cells : forall a : S, du1simd.sum a = esum (du1simd.cells_of a);
  sum_add : forall a b : S,
    du1simd.sum (du1simd.add a b) = eadd (du1simd.sum a) (du1simd.sum b);
  mask_lower_cells : forall (a : S) (lgap : Z),
    0 <= lgap < Z.of_nat du1simd.carrier_lanes ->
    exists y, du1simd.mask_lower a lgap = Ok y /\
      du1simd.cells_of y =
        repeat ezero (Z.to_nat lgap) ++ skipn (Z.to_nat lgap) (du1simd.cells_of a);
  mask_upper_cells : forall (a : S) (ugap : Z),
    - Z.of_nat du1simd.carrier_lanes < ugap <= 0 ->
    exists y, du1simd.mask_upper a ugap = Ok y /\
      du1simd.cells_of y =
        firstn (Z.to_nat (ugap + Z.of_nat du1simd.carrier_lanes)) (du1simd.cells_of a)
        ++ repeat ezero (Z.to_nat (- ugap));
  mask_both_seq : forall (a : S) (lgap ugap : Z),
    0 <= lgap < Z.of_nat du1simd.carrier_lanes ->
    - Z.of_nat du1simd.carrier_lanes < ugap <= 0 ->
    du1simd.mask_both a lgap ugap =
      (x <- du1simd.mask_lower a lgap ;; du1simd.mask_upper x ugap)
}.


(** ** The remaining iterator operators *)

Section MoreOperators.
Variables (bits sizeof_T sizeof_S : Z).

(** [operator>] and [operator>=] of the element iterator. *)
Definition it_gt (a v : simd_vector_iterator) : bool :=
  base a + offset a * sizeof_T >? base v + offset v * sizeof_T.
Definition it_ge (a v : simd_vector_iterator) : bool :=
  base a + offset a * sizeof_T >=? base v + offset v * sizeof_T.

(** [operator>], [operator<=] and [operator>=] of the lane iterator. *)
Definition sit_gt (a v : simd_vector_simd_iterator) : bool :=
  sbase a + soffset a * sizeof_S >? sbase v + soffset v * sizeof_S.
Definition sit_le (a v : simd_vector_simd_iterator) : bool :=
  sbase a + soffset a * sizeof_S <=? sbase v + soffset v * sizeof_S.
Definition sit_ge (a v : simd_vector_simd_iterator) : bool :=
  sbase a + soffset a * sizeof_S >=? sbase v + soffset v * sizeof_S.

(** Post-increment and post-decrement: the value returned ([tmp]) and the
    iterator afterwards. *)
Definition it_post_incr (a : simd_vector_iterator)
  : simd_vector_iterator * simd_vector_iterator := (a, it_incr bits a).
Definition it_post_decr (a : simd_vector_iterator)
  : simd_vector_iterator * simd_vector_iterator := (a, it_decr bits a).
Definition sit_post_incr (a : simd_vector_simd_iterator)
  : simd_vector_simd_iterator * simd_vector_simd_iterator := (a, sit_incr bits a).
Definition sit_post_decr (a : simd_vector_simd_iterator)
  : simd_vector_simd_iterator * simd_vector_simd_iterator := (a, sit_decr bits a).

(** The free [operator+] and [operator-] of the lane iterator. *)
Definition sit_plus (a : simd_vector_simd_iterator) (b : Z) := sit_add_assign bits a b.
Definition sit_minus (a : simd_vector_simd_iterator) (b : Z) := sit_sub_assign bits a b.

End MoreOperators.

(** ** Writing through the iterators *)

(** The cells of [l] with those from index [lo] on replaced by [new]. *)
Definition write_cells {A : Type} (lo : Z) (new l : list A) : list A :=
  firstn (Z.to_nat lo) l ++ new ++ skipn (Z.to_nat lo + length new) l.

Section Store.
Context {A S : Type} `{du1simd.simd A S}.
Variables (bits sizeof_T sizeof_S : Z).

(** [*it = x;] through [T& operator*()]. *)
Definition store (m : memory A) (it : simd_vector_iterator) (x : A)
  : outcome (memory A) :=
  if base it =? m_base m then
    if (0 <=? offset it) && (offset it <? Z.of_nat (length (m_cells m)))
    then Ok (mk_memory (m_base m) (write_cells (offset it) [x] (m_cells m)))
    else Fault (ElementOutOfBounds (offset it))
  else Fault ForeignPointer.

(** [*it = x;] through [S& operator*()] of the lane iterator. *)
Definition store_lane (m : memory A) (it : simd_vector_simd_iterator) (x : S)
  : outcome (memory A) :=
  let k := lane_width sizeof_T sizeof_S in
  let j := soffset it in
  if sbase it =? m_base m then
    if (0 <=? j) && (j * k + k <=? Z.of_nat (length (m_cells m)))
    then Ok (mk_memory (m_base m)
                       (write_cells (j * k) (du1simd.cells_of x) (m_cells m)))
    else Fault (LaneOutOfBounds j)
  else Fault ForeignPointer.

(** [S& operator[](n) const { return base[offset + n]; }] *)
Definition index_lane (m : memory A) (it : simd_vector_simd_iterator) (n : Z)
  : outcome S :=
  deref_lane sizeof_T sizeof_S m
    (simd_it (sbase it) (Int.to_ptrdiff_t bits (soffset it + n))).

End Store.

(** ** Filling and walking a container *)

Section Fill.
Context {A G : Type}.
Variable bits : Z.

(** [std::generate(first, last, gen)], the loop
    [for (; first != last; ++first) *first = gen();] with the state of the
    generator passed along; also the fill loop of [iterator_test],
    [for (it = begin(); it != end(); it++) *it = i++;]. *)
Fixpoint generate (fuel : nat) (m : memory A) (first last : simd_vector_iterator)
         (gen : G -> A * G) (g : G) : outcome (memory A * G) :=
  match fuel with
  | O => Fault OutOfFuel
  | Datatypes.S fuel' =>
      if it_neq first last then
        let '(x, g') := gen g in
        m' <- store m first x ;;
        generate fuel' m' (it_incr bits first) last gen g'
      else Ok (m, g)
  end.

(** The values [n] calls of the generator return, and its state afterwards. *)
Fixpoint produced (n : nat) (gen : G -> A * G) (g : G) : list A * G :=
  match n with
  | O => ([], g)
  | Datatypes.S n' =>
      let '(x, g') := gen g in
      let '(l, g'') := produced n' gen g' in
      (x :: l, g'')
  end.

(** The lane walk of [iterator_test]:
    [for (auto it = b; it != e; it++) { ... it[0] ... }], as the list of
    lane indices at which the body runs. *)
Fixpoint traverse_lanes (fuel : nat) (b e : simd_vector_simd_iterator)
  : outcome (list Z) :=
  match fuel with
  | O => Fault OutOfFuel
  | Datatypes.S fuel' =>
      if sit_neq b e then
        rest <- traverse_lanes fuel' (sit_incr bits b) e ;;
        Ok (soffset b :: rest)
      else Ok []
  end.

End Fill.

(** The generator of [tester::test], [[&gen, X2]() { return gen += X2; }]:
    the state is [gen]. *)
Definition gen_step {A : Type} `{Elem A} (X2 : A) (gen : A) : A * A :=
  let gen' := eadd gen X2 in (gen', gen').

(** ** [float] on integer values *)

(** A [float] that holds an integer.  The sum of two such values below
    [2^127] in magnitude is what IEEE 754 binary32 addition gives: the exact
    sum rounded to 24 significant bits, ties to the even significand. *)
Inductive float32 : Type := F32 (value : Z).

Definition round_binary32 (z : Z) : Z :=
  let a := Z.abs z in
  if a <? 2 ^ 24 then z
  else
    let e := Z.log2 a - 23 in
    let q := a / 2 ^ e in
    let r := a mod 2 ^ e in
    let half := 2 ^ (e - 1) in
    let q' := if (half <? r) || ((r =? half) && Z.odd q) then q + 1 else q in
    Z.sgn z * (q' * 2 ^ e).

Definition float32_add (x y : float32) : float32 :=
  match x, y with
  | F32 a, F32 b => F32 (round_binary32 (a + b))
  end.

#[global] Instance float32_Elem : Elem float32 :=
  {| ezero := F32 0; eadd := float32_add |}.

(** * Properties *)

(** ** Machine integers *)

Lemma pow2_split bits : 1 <= bits -> 2 ^ bits = 2 * 2 ^ (bits - 1).
Proof.
  intros Hb. replace bits with (Z.succ (bits - 1)) at 1 by lia.
  rewrite Z.pow_succ_r by lia. reflexivity.
Qed.

Lemma to_ptrdiff_t_small bits z :
  1 <= bits ->
  Int.PTRDIFF_MIN bits <= z <= Int.PTRDIFF_MAX bits ->
  Int.to_ptrdiff_t bits z = z.
Proof.
  unfold Int.to_ptrdiff_t, Int.PTRDIFF_MIN, Int.PTRDIFF_MAX. intros Hb Hz.
  pose proof (pow2_split bits Hb) as Hp.
  assert (0 < 2 ^ (bits - 1)) by (apply Z.pow_pos_nonneg; lia).
  rewrite Z.mod_small by lia. lia.
Qed.

Lemma to_size_t_small bits z :
  0 <= z <= Int.SIZE_MAX bits -> Int.to_size_t bits z = z.
Proof.
  unfold Int.to_size_t, Int.SIZE_MAX. intros Hz.
  apply Z.mod_small. lia.
Qed.

Lemma PTRDIFF_MAX_nonneg bits : 1 <= bits -> 0 <= Int.PTRDIFF_MAX bits.
Proof.
  intros Hb. unfold Int.PTRDIFF_MAX.
  assert (0 < 2 ^ (bits - 1)) by (apply Z.pow_pos_nonneg; lia). lia.
Qed.

Lemma PTRDIFF_MAX_lt_SIZE_MAX bits :
  1 <= bits -> 2 * Int.PTRDIFF_MAX bits + 1 = Int.SIZE_MAX bits.
Proof.
  intros Hb. unfold Int.PTRDIFF_MAX, Int.SIZE_MAX.
  rewrite (pow2_split bits Hb). lia.
Qed.

(** ** Lane width *)

Lemma lane_width_pos sizeof_T sizeof_S :
  compatible sizeof_T sizeof_S ->
  1 <= lane_width sizeof_T sizeof_S /\
  sizeof_S = lane_width sizeof_T sizeof_S * sizeof_T.
Proof.
  unfold compatible, lane_width. intros (HT & HS & Hm).
  pose proof (Z.div_mod sizeof_S sizeof_T ltac:(lia)) as Hd.
  rewrite Hm in Hd. split; [nia | lia].
Qed.

Lemma rem_mod_nonneg a b : 0 <= a -> 0 < b -> Z.rem a b = a mod b.
Proof. intros Ha Hb. apply Z.rem_mod_nonneg; lia. Qed.

Lemma quot_div_nonneg a b : 0 <= a -> 0 < b -> Z.quot a b = a / b.
Proof. intros Ha Hb. apply Z.quot_div_nonneg; lia. Qed.

(** ** The end gap of an element iterator *)

(** C3, as amended: at a non-negative offset, [upper_offset] (the spec's
    [lane_end_gap]) is [(offset % k) - (k - 1)], it lies in [[-(k-1), 0]],
    and it is [0] exactly when the position is the last element of its lane,
    [offset % k = k - 1]. *)
Theorem upper_offset_value_range_zero sizeof_T sizeof_S it :
  compatible sizeof_T sizeof_S ->
  0 <= offset it ->
  let k := lane_width sizeof_T sizeof_S in
  upper_offset sizeof_T sizeof_S it = offset it mod k - (k - 1) /\
  - (k - 1) <= upper_offset sizeof_T sizeof_S it <= 0 /\
  (upper_offset sizeof_T sizeof_S it = 0 <-> offset it mod k = k - 1).
Proof.
  intros Hc Ho k. destruct (lane_width_pos _ _ Hc) as [Hk _]. fold k in Hk.
  unfold upper_offset. fold k.
  rewrite rem_mod_nonneg by lia.
  pose proof (Z.mod_pos_bound (offset it) k ltac:(lia)).
  repeat split; lia.
Qed.

Lemma upper_offset_value_range_zero_witness :
  upper_offset 1 4 (iterator 4096 7) = 7 mod 4 - (4 - 1) /\
  - (4 - 1) <= upper_offset 1 4 (iterator 4096 7) <= 0 /\
  (upper_offset 1 4 (iterator 4096 7) = 0 <-> 7 mod 4 = 4 - 1).
Proof.
  apply (upper_offset_value_range_zero 1 4 (iterator 4096 7)).
  - unfold compatible. repeat split; reflexivity.
  - simpl. lia.
Defined.

(** C3, as stated, fails: with four elements per lane the position at offset
    8 is on a lane boundary, and its end gap is [-3], not [0]. *)
Lemma upper_offset_on_lane_boundary :
  ~ (upper_offset 1 4 (iterator 4096 8) = 0 <->
     offset (iterator 4096 8) mod lane_width 1 4 = 0).
Proof.
  intros [_ H]. specialize (H eq_refl). vm_compute in H. discriminate H.
Qed.

(** ** Offsets and differences *)

Section Differences.
Variables (bits : Z) (v : simd_vector).
Hypothesis Hbits : 1 <= bits.
Hypothesis Hsize : 0 <= content_size v <= Int.PTRDIFF_MAX bits.

Lemma end_offset : offset (end_ bits v) = content_size v.
Proof.
  unfold end_; simpl. apply to_ptrdiff_t_small; [assumption|].
  unfold Int.PTRDIFF_MIN, Int.PTRDIFF_MAX in *. lia.
Qed.

Lemma end_minus_begin : it_diff bits (end_ bits v) (begin_ v) = content_size v.
Proof.
  unfold it_diff. rewrite end_offset. simpl. rewrite Z.sub_0_r.
  apply to_ptrdiff_t_small; [assumption|].
  unfold Int.PTRDIFF_MIN, Int.PTRDIFF_MAX in *. lia.
Qed.

Lemma begin_plus_offset n :
  0 <= n <= content_size v -> offset (it_plus bits (begin_ v) n) = n.
Proof.
  intros Hn. unfold it_plus, it_add_assign, begin_; simpl.
  apply to_ptrdiff_t_small; [assumption|].
  unfold Int.PTRDIFF_MIN, Int.PTRDIFF_MAX in *. lia.
Qed.

End Differences.

(** C6, as amended: the difference type is [std::ptrdiff_t] itself, of
    whatever width [bits] the platform gives it.  Whenever the container's
    size is at most [PTRDIFF_MAX], offsets and differences are exact:
    [begin() + n] is at offset [n], stepping it forward and back moves it by
    one, the difference of two positions is the difference of their offsets,
    and [end() - begin()] is the size. *)
Theorem difference_type_exact_up_to_PTRDIFF_MAX bits v n m :
  1 <= bits ->
  0 <= content_size v <= Int.PTRDIFF_MAX bits ->
  0 <= n < content_size v ->
  0 <= m <= content_size v ->
  offset (it_plus bits (begin_ v) n) = n /\
  offset (it_incr bits (it_plus bits (begin_ v) n)) = n + 1 /\
  offset (it_decr bits (it_incr bits (it_plus bits (begin_ v) n))) = n /\
  offset (it_minus bits (end_ bits v) m) = content_size v - m /\
  it_diff bits (it_plus bits (begin_ v) n) (it_plus bits (begin_ v) m) = n - m /\
  it_diff bits (end_ bits v) (begin_ v) = content_size v.
Proof.
  intros Hb Hs Hn Hm.
  assert (Hsmall : forall z, - content_size v <= z <= content_size v ->
                             Int.to_ptrdiff_t bits z = z).
  { intros z Hz. apply to_ptrdiff_t_small; [assumption|].
    unfold Int.PTRDIFF_MIN, Int.PTRDIFF_MAX in *. lia. }
  unfold it_plus, it_minus, it_incr, it_decr, it_add_assign, it_sub_assign,
    it_diff, begin_, end_; simpl.
  rewrite !(Hsmall n), !(Hsmall m), !(Hsmall (content_size v)) by lia.
  rewrite !(Hsmall (n + 1)) by lia.
  replace (n + 1 - 1) with n by lia. rewrite !(Hsmall n) by lia.
  rewrite Z.sub_0_r.
  repeat split; try reflexivity; apply Hsmall; lia.
Qed.

(** A container of [2^31 + 1] one-byte elements where [std::ptrdiff_t] has
    64 bits. *)
Lemma difference_type_exact_up_to_PTRDIFF_MAX_witness :
  let v := mk_simd_vector 1 4096 4096 (4096 + (2 ^ 31 + 1)) (2 ^ 31 + 1) in
  offset (it_plus 64 (begin_ v) (2 ^ 31)) = 2 ^ 31 /\
  offset (it_incr 64 (it_plus 64 (begin_ v) (2 ^ 31))) = 2 ^ 31 + 1 /\
  offset (it_decr 64 (it_incr 64 (it_plus 64 (begin_ v) (2 ^ 31)))) = 2 ^ 31 /\
  offset (it_minus 64 (end_ 64 v) 5) = content_size v - 5 /\
  it_diff 64 (it_plus 64 (begin_ v) (2 ^ 31)) (it_plus 64 (begin_ v) 5) = 2 ^ 31 - 5 /\
  it_diff 64 (end_ 64 v) (begin_ v) = content_size v.
Proof.
  intros v.
  apply (difference_type_exact_up_to_PTRDIFF_MAX 64 v (2 ^ 31) 5).
  - lia.
  - vm_compute. split; discriminate.
  - vm_compute. split; [discriminate | reflexivity].
  - vm_compute. split; discriminate.
Defined.

(** C6, as stated, fails where [std::ptrdiff_t] has 32 bits: a container of
    [2^31] one-byte elements is constructed, and the offset of [end()] and
    the difference [end() - begin()] are truncated to [-2^31]. *)
Lemma difference_type_truncates_on_32_bits :
  exists v,
    snd (simd_vector_ctor 32 1 1 (aligned_alloc_at 4096) (operator_new_at 4096)
           GNUC (2 ^ 31)) = inr v /\
    size v = 2 ^ 31 /\
    offset (end_ 32 v) = - 2 ^ 31 /\
    it_diff 32 (end_ 32 v) (begin_ v) <> size v.
Proof.
  eexists. split; [vm_compute; reflexivity|].
  split; [reflexivity|]. split; [reflexivity|].
  vm_compute. discriminate.
Qed.

(** ** What a successful construction stores *)

Lemma ctor_success_fields bits sizeof_T sizeof_S aligned_alloc operator_new b s calls v :
  simd_vector_ctor bits sizeof_T sizeof_S aligned_alloc operator_new b s
    = (calls, inr v) ->
  content_size v = s /\
  k v = lane_width sizeof_T sizeof_S /\
  aligned_end v = aligned_begin v + s * sizeof_T.
Proof.
  unfold simd_vector_ctor. destruct b.
  - destruct (_ =? 0); intros H; inversion H; subst; simpl; auto.
  - destruct (operator_new _) as [raw|]; [|intros H; inversion H].
    destruct (std_align _ _ _ _) as [[p sp]|]; intros H; inversion H; subst; simpl; auto.
Qed.

(** ** Element-wise traversal *)

Lemma it_neq_same_base p b e : it_neq (iterator p b) (iterator p e) = negb (b =? e).
Proof. unfold it_neq; simpl. rewrite Z.eqb_refl. reflexivity. Qed.

Lemma traverse_offsets bits p e fuel :
  1 <= bits -> e <= Int.PTRDIFF_MAX bits ->
  forall b, 0 <= b <= e -> (Z.to_nat (e - b) < fuel)%nat ->
  du1example.traverse bits fuel (iterator p b) (iterator p e)
    = Ok (map Z.of_nat (seq (Z.to_nat b) (Z.to_nat (e - b)))).
Proof.
  intros Hb He. induction fuel as [|fuel IH]; intros b Hbe Hf; [lia|].
  simpl. rewrite it_neq_same_base.
  destruct (Z.eqb_spec b e) as [->|Hne]; simpl.
  - rewrite Z.sub_diag. reflexivity.
  - unfold it_incr; simpl.
    rewrite to_ptrdiff_t_small
      by (try assumption; unfold Int.PTRDIFF_MIN, Int.PTRDIFF_MAX in *; lia).
    rewrite IH by lia. simpl.
    replace (Z.to_nat (e - b)) with (Datatypes.S (Z.to_nat (e - (b + 1)))) by lia.
    simpl. rewrite Z2Nat.id by lia.
    replace (Z.to_nat (b + 1)) with (Datatypes.S (Z.to_nat b)) by lia.
    reflexivity.
Qed.

Lemma in_offsets_upto n i : In i (offsets_upto n) <-> 0 <= i < n.
Proof.
  unfold offsets_upto. rewrite in_map_iff. split.
  - intros (j & <- & Hj). apply in_seq in Hj. lia.
  - intros Hi. exists (Z.to_nat i). split; [lia|]. apply in_seq. lia.
Qed.

(** C5, as amended: a container constructed for [s] elements, with [s]
    representable in the difference type ([0 <= s <= PTRDIFF_MAX]), has
    [end() - begin() = s] and [size() = s], whatever the allocation was
    rounded up to; the traversal from [begin()] to [end()] terminates and
    visits exactly the offsets [0 .. s-1], none of them in the padding
    [[s, rounded_count)]. *)
Theorem logical_bound bits sizeof_T sizeof_S aligned_alloc operator_new b s calls v :
  1 <= bits ->
  0 <= s <= Int.PTRDIFF_MAX bits ->
  simd_vector_ctor bits sizeof_T sizeof_S aligned_alloc operator_new b s
    = (calls, inr v) ->
  it_diff bits (end_ bits v) (begin_ v) = s /\
  size v = s /\
  (forall fuel, (Z.to_nat s < fuel)%nat ->
     du1example.traverse bits fuel (begin_ v) (end_ bits v) = Ok (offsets_upto s)) /\
  Z.of_nat (length (offsets_upto s)) = s /\
  (forall i, In i (offsets_upto s) ->
     0 <= i < s /\
     ~ (s <= i < rounded_count bits sizeof_T sizeof_S s)).
Proof.
  intros Hb Hs Hc.
  destruct (ctor_success_fields _ _ _ _ _ _ _ _ _ Hc) as (Hcs & _ & _).
  split; [|split; [|split; [|split]]].
  - rewrite end_minus_begin; [assumption | assumption | rewrite Hcs; assumption].
  - exact Hcs.
  - intros fuel Hf. unfold end_, begin_. rewrite Hcs.
    rewrite to_ptrdiff_t_small
      by (try assumption; unfold Int.PTRDIFF_MIN, Int.PTRDIFF_MAX in *; lia).
    rewrite traverse_offsets by (try assumption; lia).
    rewrite Z.sub_0_r. reflexivity.
  - unfold offsets_upto. rewrite length_map, length_seq. lia.
  - intros i Hi. apply in_offsets_upto in Hi. split; lia.
Qed.

(** Eighteen one-byte elements in four-byte lanes, allocation rounded to
    twenty. *)
Lemma logical_bound_witness :
  let v := mk_simd_vector 4 4096 4096 (4096 + 18) 18 in
  it_diff 64 (end_ 64 v) (begin_ v) = 18 /\
  size v = 18 /\
  (forall fuel, (Z.to_nat 18 < fuel)%nat ->
     du1example.traverse 64 fuel (begin_ v) (end_ 64 v) = Ok (offsets_upto 18)) /\
  Z.of_nat (length (offsets_upto 18)) = 18 /\
  (forall i, In i (offsets_upto 18) ->
     0 <= i < 18 /\ ~ (18 <= i < rounded_count 64 1 4 18)).
Proof.
  intros v.
  apply (logical_bound 64 1 4 (aligned_alloc_at 4096) (operator_new_at 4096)
           GNUC 18 [call_aligned_alloc 4 20] v).
  - lia.
  - vm_compute. split; discriminate.
  - reflexivity.
Defined.

(** C5, as stated, fails for a count that [std::ptrdiff_t] cannot hold:
    the container is constructed, [size()] is the count, and
    [end() - begin()] is the count wrapped into the difference type (three
    GiB of bytes with 32 bits; [SIZE_MAX] bytes with 64 bits). *)
Lemma logical_bound_fails_beyond_PTRDIFF_MAX :
  (exists v,
     simd_vector_ctor 32 1 1 (aligned_alloc_at 4096) (operator_new_at 4096)
       GNUC (3 * 2 ^ 30) = ([call_aligned_alloc 1 (3 * 2 ^ 30)], inr v) /\
     size v = 3 * 2 ^ 30 /\
     it_diff 32 (end_ 32 v) (begin_ v) = - 2 ^ 30 /\
     it_diff 32 (end_ 32 v) (begin_ v) <> size v) /\
  (exists v,
     simd_vector_ctor 64 1 1 (aligned_alloc_at 4096) (operator_new_at 4096)
       GNUC (2 ^ 64 - 1) = ([call_aligned_alloc 1 (2 ^ 64 - 1)], inr v) /\
     size v = 2 ^ 64 - 1 /\
     it_diff 64 (end_ 64 v) (begin_ v) = -1 /\
     it_diff 64 (end_ 64 v) (begin_ v) <> size v).
Proof.
  split; eexists; (split; [vm_compute; reflexivity|]);
    (split; [reflexivity|]); (split; [vm_compute; reflexivity|]);
    vm_compute; discriminate.
Qed.


(** ** [std::align] *)

Lemma align_up_spec alignment ptr :
  0 < alignment ->
  let aligned := (ptr + alignment - 1) / alignment * alignment in
  ptr <= aligned < ptr + alignment /\ aligned mod alignment = 0 /\
  (forall q, ptr <= q -> q mod alignment = 0 -> aligned <= q).
Proof.
  intros Ha aligned. subst aligned.
  pose proof (Z.div_mod (ptr + alignment - 1) alignment ltac:(lia)) as Hd.
  pose proof (Z.mod_pos_bound (ptr + alignment - 1) alignment Ha) as Hm.
  split; [lia|]. split; [apply Z.mod_mul; lia|].
  intros q Hq Hq0.
  pose proof (Z.div_mod q alignment ltac:(lia)) as Hdq. rewrite Hq0 in Hdq.
  assert ((ptr + alignment - 1) / alignment < q / alignment + 1)
    by (apply Z.div_lt_upper_bound; lia).
  nia.
Qed.

Lemma std_align_Some alignment size ptr space p sp :
  0 < alignment ->
  std_align alignment size ptr space = Some (p, sp) ->
  p mod alignment = 0 /\ ptr <= p /\ p + size <= ptr + space /\
  sp = space - (p - ptr).
Proof.
  intros Ha. unfold std_align.
  destruct (align_up_spec alignment ptr Ha) as (Hr & Hm & _).
  destruct (_ && _) eqn:E; intros H; inversion H; subst; clear H.
  apply andb_true_iff in E. destruct E as [E1 E2].
  apply Z.leb_le in E1. apply Z.leb_le in E2.
  repeat split; try assumption; lia.
Qed.


(** ** Rounding the element count *)

Lemma rounded_count_spec bits sizeof_T sizeof_S s :
  compatible sizeof_T sizeof_S ->
  0 <= s ->
  s + lane_width sizeof_T sizeof_S <= Int.SIZE_MAX bits ->
  let k := lane_width sizeof_T sizeof_S in
  let rc := rounded_count bits sizeof_T sizeof_S s in
  rc mod k = 0 /\ s <= rc < s + k /\
  (forall n, s <= n -> n mod k = 0 -> rc <= n).
Proof.
  intros Hc Hs Hfit k rc. destruct (lane_width_pos _ _ Hc) as [Hk _]. fold k in Hk, Hfit.
  subst rc. unfold rounded_count. fold k.
  pose proof (Z.div_mod s k ltac:(lia)) as Hd.
  pose proof (Z.mod_pos_bound s k ltac:(lia)) as Hm.
  destruct (Z.eqb_spec (s mod k) 0) as [E|E].
  - split; [assumption|]. split; [lia|]. intros; assumption.
  - rewrite to_size_t_small by nia.
    split; [apply Z.mod_mul; lia|]. split; [nia|].
    intros n Hn Hn0.
    pose proof (Z.div_mod n k ltac:(lia)) as Hdn. rewrite Hn0 in Hdn.
    assert (s / k < n / k) by nia. nia.
Qed.

(** ** Construction *)




(** C8, as amended: for a successfully constructed container whose sizes
    are representable in [std::size_t] ([(s + 2k) * sizeof(T) <= SIZE_MAX]),
    under either allocation
    strategy, the address [begin()] refers to is a multiple of [sizeof(S)];
    the region is sized for [rounded_count] elements, the smallest multiple
    of [k] that is at least the requested count (requested from
    [aligned_alloc] directly, or lying inside the block of [rounded_count +
    k] elements that [new] returned); and the whole lane of every logical
    element is inside that region.  [aligned_alloc] is assumed to honour
    the alignment it is asked for. *)
Theorem alignment_invariant bits sizeof_T sizeof_S aligned_alloc operator_new b s calls v :
  compatible sizeof_T sizeof_S ->
  let k := lane_width sizeof_T sizeof_S in
  let rc := rounded_count bits sizeof_T sizeof_S s in
  0 <= s ->
  (s + 2 * k) * sizeof_T <= Int.SIZE_MAX bits ->
  (forall size,
      aligned_alloc sizeof_S size <> 0 ->
      aligned_alloc sizeof_S size mod sizeof_S = 0) ->
  simd_vector_ctor bits sizeof_T sizeof_S aligned_alloc operator_new b s
    = (calls, inr v) ->
  base (begin_ v) mod sizeof_S = 0 /\
  (rc mod k = 0 /\ s <= rc /\ (forall n, s <= n -> n mod k = 0 -> rc <= n)) /\
  match b with
  | GNUC =>
      calls = [call_aligned_alloc sizeof_S (rc * sizeof_T)] /\
      aligned_begin v = raw_block v
  | Other =>
      calls = [call_new (rc + k);
               call_std_align sizeof_S (rc * sizeof_T) (raw_block v)
                              ((rc + k) * sizeof_T)] /\
      raw_block v <= aligned_begin v /\
      aligned_begin v + rc * sizeof_T <= raw_block v + (rc + k) * sizeof_T
  end /\
  (forall i, 0 <= i < s -> 0 <= i / k * k /\ i / k * k + k <= rc).
Proof.
  intros Hc k rc Hs Hfit Haa Hv.
  destruct (lane_width_pos _ _ Hc) as [Hk HS]. fold k in Hk, HS.
  destruct Hc as (HT & HSpos & _).
  assert (Hfit' : s + k <= Int.SIZE_MAX bits) by nia.
  destruct (rounded_count_spec bits sizeof_T sizeof_S s
              ltac:(unfold compatible; repeat split; try assumption;
                    rewrite HS; apply Z.mod_mul; lia) Hs Hfit')
    as (Hrc0 & Hrc & Hmin).
  fold k in Hrc0, Hrc, Hmin. fold rc in Hrc0, Hrc, Hmin.
  assert (Hbytes : Int.to_size_t bits (rc * sizeof_T) = rc * sizeof_T)
    by (apply to_size_t_small; nia).
  assert (Hreq : Int.to_size_t bits (rc + k) = rc + k)
    by (apply to_size_t_small; nia).
  assert (Hbuf : Int.to_size_t bits ((rc + k) * sizeof_T) = (rc + k) * sizeof_T)
    by (apply to_size_t_small; nia).
  assert (Hlanes : forall i, 0 <= i < s -> 0 <= i / k * k /\ i / k * k + k <= rc).
  { intros i Hi.
    pose proof (Z.div_mod i k ltac:(lia)) as Hd.
    pose proof (Z.mod_pos_bound i k ltac:(lia)) as Hm.
    pose proof (Z.div_mod rc k ltac:(lia)) as Hdr. rewrite Hrc0 in Hdr.
    assert (0 <= i / k) by (apply Z.div_pos; lia).
    assert (i / k < rc / k) by nia.
    split; nia. }
  unfold simd_vector_ctor in Hv. fold k rc in Hv.
  rewrite ?Hbytes, ?Hreq, ?Hbuf in Hv.
  destruct b.
  - destruct (Z.eqb_spec (aligned_alloc sizeof_S (rc * sizeof_T)) 0) as [E|E];
      [discriminate Hv|]. injection Hv as <- <-. simpl.
    repeat split; try assumption; try lia; try reflexivity.
    + apply Haa; assumption.
    + apply Hlanes; assumption.
    + apply Hlanes; assumption.
  - destruct (operator_new (rc + k)) as [raw|]; [|inversion Hv].
    destruct (std_align sizeof_S (rc * sizeof_T) raw ((rc + k) * sizeof_T))
      as [[p sp]|] eqn:E; [|discriminate Hv]. injection Hv as <- <-. simpl.
    apply std_align_Some in E; [|assumption].
    destruct E as (Hp0 & Hple & Hpfit & _).
    repeat split; try assumption; try lia; try reflexivity.
    + apply Hlanes; assumption.
    + apply Hlanes; assumption.
Qed.

(** Eighteen one-byte elements in four-byte lanes, from a block that [new]
    placed one byte past a lane boundary. *)
Lemma alignment_invariant_witness :
  let v := mk_simd_vector 4 4097 4100 4118 18 in
  base (begin_ v) mod 4 = 0 /\
  (rounded_count 64 1 4 18 mod lane_width 1 4 = 0 /\
   18 <= rounded_count 64 1 4 18 /\
   (forall n, 18 <= n -> n mod lane_width 1 4 = 0 -> rounded_count 64 1 4 18 <= n)) /\
  ([call_new 24; call_std_align 4 20 4097 24] =
     [call_new (rounded_count 64 1 4 18 + lane_width 1 4);
      call_std_align 4 (rounded_count 64 1 4 18 * 1) (raw_block v)
                     ((rounded_count 64 1 4 18 + lane_width 1 4) * 1)] /\
   raw_block v <= aligned_begin v /\
   aligned_begin v + rounded_count 64 1 4 18 * 1
     <= raw_block v + (rounded_count 64 1 4 18 + lane_width 1 4) * 1) /\
  (forall i, 0 <= i < 18 ->
     0 <= i / lane_width 1 4 * lane_width 1 4 /\
     i / lane_width 1 4 * lane_width 1 4 + lane_width 1 4 <= rounded_count 64 1 4 18).
Proof.
  intros v.
  apply (alignment_invariant 64 1 4 (aligned_alloc_at 4096) (operator_new_at 4097)
           Other 18 [call_new 24; call_std_align 4 20 4097 24] v).
  - unfold compatible. repeat split; reflexivity.
  - lia.
  - vm_compute. discriminate.
  - intros size _. reflexivity.
  - reflexivity.
Defined.

(** C8, as stated, fails when the byte count wraps in [std::size_t]: for
    [2^62] four-byte elements in sixteen-byte lanes the rounded count is
    [2^62], the size passed to [aligned_alloc] is [2^62 * 4 mod 2^64 = 0],
    and the container is constructed on a region of zero bytes, which holds
    neither the rounded count of elements nor the lane of element 0. *)
Lemma alignment_invariant_fails_when_sizes_wrap :
  exists v,
    simd_vector_ctor 64 4 16 (aligned_alloc_at 4096) (operator_new_at 4096)
      GNUC (2 ^ 62) = ([call_aligned_alloc 16 0], inr v) /\
    size v = 2 ^ 62 /\
    rounded_count 64 4 16 (2 ^ 62) = 2 ^ 62 /\
    Int.to_size_t 64 (rounded_count 64 4 16 (2 ^ 62) * 4) = 0 /\
    ~ (0 / lane_width 4 16 * lane_width 4 16 + lane_width 4 16) * 4
        <= Int.to_size_t 64 (rounded_count 64 4 16 (2 ^ 62) * 4).
Proof.
  eexists. split; [vm_compute; reflexivity|].
  split; [reflexivity|]. split; [vm_compute; reflexivity|].
  split; [vm_compute; reflexivity|].
  vm_compute. intros H. apply H. reflexivity.
Qed.


(** ** Moves and destruction *)

Lemma release_null h : release 0 h = Some h.
Proof. reflexivity. Qed.

Lemma release_live p h :
  p <> 0 -> In p (live h) ->
  release p h = Some (mk_heap (remove Z.eq_dec p (live h)) (p :: freed h)).
Proof.
  intros Hp Hin. unfold release.
  destruct (Z.eqb_spec p 0) as [|_]; [contradiction|].
  assert (E : existsb (Z.eqb p) (live h) = true).
  { apply existsb_exists. exists p. split; [assumption | apply Z.eqb_refl]. }
  rewrite E. reflexivity.
Qed.

Lemma release_dead p h : p <> 0 -> ~ In p (live h) -> release p h = None.
Proof.
  intros Hp Hin. unfold release.
  destruct (Z.eqb_spec p 0) as [|_]; [contradiction|].
  destruct (existsb (Z.eqb p) (live h)) eqn:E; [|reflexivity].
  apply existsb_exists in E. destruct E as (q & Hq & Hpq).
  apply Z.eqb_eq in Hpq. subst q. contradiction.
Qed.

(** Releasing the same allocation a second time has no defined behaviour. *)
Lemma release_twice p h h' : p <> 0 -> release p h = Some h' -> release p h' = None.
Proof.
  intros Hp H. unfold release in H.
  destruct (Z.eqb_spec p 0) as [|_]; [contradiction|].
  destruct (existsb _ _); inversion H; subst; clear H.
  apply release_dead; [assumption|]. simpl. apply remove_In.
Qed.

Lemma dtor_release b v h : dtor b v h = release (raw_block v) h.
Proof. destruct b; reflexivity. Qed.

Lemma destroy_both_release b x y h :
  destroy_both b x y h =
    match release (raw_block x) h with
    | Some h' => release (raw_block y) h'
    | None => None
    end.
Proof. unfold destroy_both. destruct b; reflexivity. Qed.

Lemma simd_vector_eta v :
  mk_simd_vector (k v) (raw_block v) (aligned_begin v) (aligned_end v) (content_size v) = v.
Proof. destruct v; reflexivity. Qed.

(** C4, as amended: after a move the target observes the pre-move state of
    the source (every field, hence the same size, the same aligned start and
    the same cells behind it).  After move construction the three buffer
    pointers of the source are null, and destroying source and target, in
    either order, releases the allocation exactly once.  After move
    assignment the source holds the previous state of the target (the two
    are swapped), and destroying both releases each of the two allocations
    exactly once. *)
Theorem move_semantics (X : Type) b (A B0 : simd_vector) (h : heap) :
  raw_block A <> 0 -> raw_block B0 <> 0 -> raw_block A <> raw_block B0 ->
  In (raw_block A) (live h) -> In (raw_block B0) (live h) ->
  let pa := raw_block A in
  let pb := raw_block B0 in
  (let B := fst (move_ctor A) in
   let A' := snd (move_ctor A) in
   B = A /\
   (forall bits (m : memory X) i,
     index bits m (begin_ B) i = index bits m (begin_ A) i) /\
   raw_block A' = 0 /\ aligned_begin A' = 0 /\ aligned_end A' = 0 /\
   destroy_both b A' B h
     = Some (mk_heap (remove Z.eq_dec pa (live h)) (pa :: freed h)) /\
   destroy_both b B A' h
     = Some (mk_heap (remove Z.eq_dec pa (live h)) (pa :: freed h)) /\
   count_occ Z.eq_dec (pa :: freed h) pa = Datatypes.S (count_occ Z.eq_dec (freed h) pa)) /\
  (let B := fst (move_assign B0 A) in
   let A' := snd (move_assign B0 A) in
   B = A /\
   (forall bits (m : memory X) i,
     index bits m (begin_ B) i = index bits m (begin_ A) i) /\
   A' = B0 /\
   destroy_both b A' B h
     = Some (mk_heap (remove Z.eq_dec pa (remove Z.eq_dec pb (live h)))
                     (pa :: pb :: freed h)) /\
   count_occ Z.eq_dec (pa :: pb :: freed h) pa
     = Datatypes.S (count_occ Z.eq_dec (freed h) pa) /\
   count_occ Z.eq_dec (pa :: pb :: freed h) pb
     = Datatypes.S (count_occ Z.eq_dec (freed h) pb)).
Proof.
  intros Ha Hb Hab Hina Hinb pa pb. split.
  - simpl. rewrite simd_vector_eta.
    split; [reflexivity|]. split; [reflexivity|].
    split; [reflexivity|]. split; [reflexivity|]. split; [reflexivity|].
    rewrite !destroy_both_release. simpl raw_block.
    rewrite release_null. rewrite release_live by assumption.
    rewrite release_null.
    split; [reflexivity|]. split; [reflexivity|].
    apply count_occ_cons_eq. reflexivity.
  - unfold move_assign, swap. cbn [fst snd]. rewrite !simd_vector_eta.
    split; [reflexivity|]. split; [reflexivity|]. split; [reflexivity|].
    rewrite destroy_both_release.
    rewrite (release_live (raw_block B0)) by assumption.
    rewrite release_live; cbn [live freed];
      [|assumption | apply in_in_remove; assumption].
    split; [reflexivity|].
    subst pa pb. split.
    + rewrite count_occ_cons_eq by reflexivity.
      rewrite count_occ_cons_neq by congruence. reflexivity.
    + rewrite count_occ_cons_neq by congruence.
      apply count_occ_cons_eq. reflexivity.
Qed.

(** Two containers of twenty one-byte elements in four-byte lanes. *)
Lemma move_semantics_witness :
  let A := mk_simd_vector 4 4096 4096 4116 20 in
  let B0 := mk_simd_vector 4 8192 8192 8212 20 in
  let h := mk_heap [4096; 8192] [] in
  (let B := fst (move_ctor A) in
   let A' := snd (move_ctor A) in
   B = A /\
   (forall bits (m : memory Z) i,
     index bits m (begin_ B) i = index bits m (begin_ A) i) /\
   raw_block A' = 0 /\ aligned_begin A' = 0 /\ aligned_end A' = 0 /\
   destroy_both GNUC A' B h
     = Some (mk_heap (remove Z.eq_dec 4096 (live h)) (4096 :: freed h)) /\
   destroy_both GNUC B A' h
     = Some (mk_heap (remove Z.eq_dec 4096 (live h)) (4096 :: freed h)) /\
   count_occ Z.eq_dec (4096 :: freed h) 4096
     = Datatypes.S (count_occ Z.eq_dec (freed h) 4096)) /\
  (let B := fst (move_assign B0 A) in
   let A' := snd (move_assign B0 A) in
   B = A /\
   (forall bits (m : memory Z) i,
     index bits m (begin_ B) i = index bits m (begin_ A) i) /\
   A' = B0 /\
   destroy_both GNUC A' B h
     = Some (mk_heap (remove Z.eq_dec 4096 (remove Z.eq_dec 8192 (live h)))
                     (4096 :: 8192 :: freed h)) /\
   count_occ Z.eq_dec (4096 :: 8192 :: freed h) 4096
     = Datatypes.S (count_occ Z.eq_dec (freed h) 4096) /\
   count_occ Z.eq_dec (4096 :: 8192 :: freed h) 8192
     = Datatypes.S (count_occ Z.eq_dec (freed h) 8192)).
Proof.
  intros A B0 h.
  apply (move_semantics Z GNUC A B0 h).
  - vm_compute. discriminate.
  - vm_compute. discriminate.
  - vm_compute. discriminate.
  - simpl. left. reflexivity.
  - simpl. right. left. reflexivity.
Defined.

(** C4, as stated, fails: the source of a move construction keeps its
    element count, so [size()] is not zero and [begin()] differs from
    [end()]; the source of a move assignment holds the target's previous
    buffer, so its pointers are not null. *)
Lemma moved_from_is_not_empty :
  let A := mk_simd_vector 4 4096 4096 4116 20 in
  let B0 := mk_simd_vector 4 8192 8192 8212 20 in
  size (snd (move_ctor A)) <> 0 /\
  it_eq (begin_ (snd (move_ctor A))) (end_ 64 (snd (move_ctor A))) = false /\
  raw_block (snd (move_assign B0 A)) <> 0 /\
  size (snd (move_assign B0 A)) <> 0.
Proof.
  repeat split; vm_compute; discriminate.
Qed.

(** ** Slices of the cell list *)

Section Slices.
Context {A : Type}.
Implicit Types (l : list A) (lo n : Z).

Lemma slice_nil lo l : slice lo 0 l = [].
Proof. reflexivity. Qed.

Lemma slice_cons lo n l x :
  0 <= lo -> 0 < n ->
  nth_error l (Z.to_nat lo) = Some x ->
  slice lo n l = x :: slice (lo + 1) (n - 1) l.
Proof.
  intros Hlo Hn Hx. unfold slice.
  replace (Z.to_nat n) with (Datatypes.S (Z.to_nat (n - 1))) by lia.
  replace (Z.to_nat (lo + 1)) with (1 + Z.to_nat lo)%nat by lia.
  rewrite <- skipn_skipn.
  destruct (skipn (Z.to_nat lo) l) as [|y t] eqn:E.
  - pose proof (nth_error_skipn (Z.to_nat lo) l 0) as Hs.
    rewrite E, Nat.add_0_r, Hx in Hs. discriminate.
  - pose proof (nth_error_skipn (Z.to_nat lo) l 0) as Hs.
    rewrite E, Nat.add_0_r, Hx in Hs. simpl in Hs. inversion Hs; subst.
    reflexivity.
Qed.

Lemma slice_app lo n n' l :
  0 <= lo -> 0 <= n -> 0 <= n' ->
  slice lo n l ++ slice (lo + n) n' l = slice lo (n + n') l.
Proof.
  intros Hlo Hn Hn'. unfold slice.
  rewrite !Z2Nat.inj_add by lia.
  rewrite (Nat.add_comm (Z.to_nat lo)), <- skipn_skipn.
  generalize (skipn (Z.to_nat lo) l) as t.
  generalize (Z.to_nat n') as b.
  induction (Z.to_nat n) as [|a IH]; intros b t; simpl.
  - reflexivity.
  - destruct t as [|x t]; simpl.
    + rewrite firstn_nil. reflexivity.
    + rewrite IH. reflexivity.
Qed.

Lemma slice_slice lo n g n' l :
  0 <= lo -> 0 <= g -> 0 <= n' -> g + n' <= n ->
  slice g n' (slice lo n l) = slice (lo + g) n' l.
Proof.
  intros Hlo Hg Hn' Hfit. unfold slice.
  rewrite skipn_firstn_comm, firstn_firstn, skipn_skipn.
  rewrite Nat.min_l by lia.
  rewrite <- Z2Nat.inj_add by lia. rewrite (Z.add_comm g lo). reflexivity.
Qed.

Lemma length_slice lo n l :
  0 <= lo -> 0 <= n -> lo + n <= Z.of_nat (length l) ->
  length (slice lo n l) = Z.to_nat n.
Proof.
  intros Hlo Hn Hfit. unfold slice.
  rewrite length_firstn, length_skipn. lia.
Qed.

Lemma nth_error_in_bounds l i :
  0 <= i < Z.of_nat (length l) -> exists x, nth_error l (Z.to_nat i) = Some x.
Proof.
  intros Hi. destruct (nth_error l (Z.to_nat i)) as [x|] eqn:E.
  - exists x. reflexivity.
  - apply nth_error_None in E. lia.
Qed.

End Slices.

(** ** Sums over an element type with the monoid laws *)

Section Sums.
Context {A : Type} {EA : Elem A} {EL : ElemLaws A}.

Lemma eadd_0_r (x : A) : eadd x ezero = x.
Proof. rewrite eadd_comm. apply eadd_0_l. Qed.

Lemma fold_left_eadd (l : list A) (a : A) :
  fold_left eadd l a = eadd a (esum l).
Proof.
  unfold esum. revert a. induction l as [|x l IH]; intros a; simpl.
  - symmetry. apply eadd_0_r.
  - rewrite IH, (IH (eadd ezero x)), eadd_0_l. symmetry. apply eadd_assoc.
Qed.

Lemma esum_app (l1 l2 : list A) : esum (l1 ++ l2) = eadd (esum l1) (esum l2).
Proof. unfold esum at 1. rewrite fold_left_app. apply fold_left_eadd. Qed.

Lemma esum_zeros (n : nat) : esum (repeat (ezero : A) n) = ezero.
Proof.
  induction n as [|n IH]; [reflexivity|].
  change (repeat ezero (Datatypes.S n)) with ([ezero] ++ repeat (ezero : A) n).
  rewrite esum_app, IH. unfold esum; simpl. rewrite eadd_0_l. apply eadd_0_l.
Qed.

Lemma eadd_swap4 (a b c d : A) :
  eadd (eadd a b) (eadd c d) = eadd (eadd a c) (eadd b d).
Proof.
  rewrite <- (eadd_assoc a b), (eadd_assoc b c d), (eadd_comm b c),
    <- (eadd_assoc c b d), (eadd_assoc a c). reflexivity.
Qed.

End Sums.

(** ** The two capability structs satisfy the laws *)

#[global] Instance Z_ElemLaws : ElemLaws Z.
Proof. split; intros; simpl; lia. Qed.

#[global] Instance simd_scalar_laws (A : Type) {EA : Elem A} {EL : ElemLaws A} :
  SimdLaws A A.
Proof.
  split.
  - reflexivity.
  - intros [|x [|y l]] Hl; try discriminate Hl. exists x. split; reflexivity.
  - intros a. unfold esum. simpl. unfold du1simd.scalar_sum.
    symmetry. apply eadd_0_l.
  - reflexivity.
  - intros a lgap Hl. simpl in Hl. assert (lgap = 0) by lia. subst lgap.
    exists a. split; reflexivity.
  - intros a ugap Hu. simpl in Hu. assert (ugap = 0) by lia. subst ugap.
    exists a. split; reflexivity.
  - intros a lgap ugap Hl Hu. simpl in Hl, Hu.
    assert (lgap = 0) by lia. assert (ugap = 0) by lia. subst. reflexivity.
Qed.

#[global] Instance simd_m128_laws (A : Type) {EA : Elem A} {EL : ElemLaws A} :
  SimdLaws A (du1simd.m128 A).
Proof.
  split.
  - reflexivity.
  - intros [|a [|b [|c [|d [|e l]]]]] Hl; try discriminate Hl.
    eexists. split; reflexivity.
  - intros [a b c d]. unfold esum. simpl. unfold du1simd.packed_sum. simpl.
    rewrite eadd_0_l, <- eadd_assoc, <- eadd_assoc, eadd_assoc, eadd_assoc.
    reflexivity.
  - intros [a0 a1 a2 a3] [b0 b1 b2 b3]. simpl.
    unfold du1simd.packed_sum. simpl.
    rewrite (eadd_swap4 a0 b0 a1 b1), (eadd_swap4 a2 b2 a3 b3).
    apply eadd_swap4.
  - intros [a b c d] lgap Hl. simpl in Hl.
    assert (Hc : lgap = 0 \/ lgap = 1 \/ lgap = 2 \/ lgap = 3) by lia.
    destruct Hc as [-> | [-> | [-> | ->]]]; eexists; split; reflexivity.
  - intros [a b c d] ugap Hu. simpl in Hu.
    assert (Hc : ugap = 0 \/ ugap = -1 \/ ugap = -2 \/ ugap = -3) by lia.
    destruct Hc as [-> | [-> | [-> | ->]]]; eexists; split; reflexivity.
  - reflexivity.
Qed.

(** ** The two reductions *)

Section Reduction.
Context {A S : Type} {EA : Elem A} {EL : ElemLaws A}
        {SI : du1simd.simd A S} {SL : SimdLaws A S}.
Variables (bits sizeof_T sizeof_S : Z).
Variable m : memory A.

Hypothesis Hbits : 1 <= bits.
Hypothesis Hlanes :
  lane_width sizeof_T sizeof_S = Z.of_nat (du1simd.carrier_lanes (A := A) (S := S)).
Hypothesis Hk : 1 <= lane_width sizeof_T sizeof_S.
Hypothesis Hlen : Z.of_nat (length (m_cells m)) <= Int.PTRDIFF_MAX bits.

Local Notation "'k'" := (lane_width sizeof_T sizeof_S).
Local Notation "'cells'" := (m_cells m).
Local Notation "'p'" := (m_base m).

Lemma ptrdiff_in_buffer z :
  -1 <= z <= Z.of_nat (length cells) -> Int.to_ptrdiff_t bits z = z.
Proof.
  intros Hz. apply to_ptrdiff_t_small; [assumption|].
  pose proof (PTRDIFF_MAX_nonneg bits Hbits).
  unfold Int.PTRDIFF_MIN, Int.PTRDIFF_MAX in *. lia.
Qed.

Lemma deref_in_bounds i :
  0 <= i < Z.of_nat (length cells) ->
  exists x, deref m (iterator p i) = Ok x /\
            nth_error cells (Z.to_nat i) = Some x.
Proof.
  intros Hi. destruct (nth_error_in_bounds cells i Hi) as [x Hx].
  exists x. split; [|assumption].
  unfold deref; simpl. rewrite Z.eqb_refl.
  destruct (Z.leb_spec 0 i); [|lia]. rewrite Hx. reflexivity.
Qed.



(** Dereferencing lane [j] gives the cells [[j*k, j*k + k)]. *)
Lemma deref_lane_in_bounds j :
  0 <= j -> j * k + k <= Z.of_nat (length cells) ->
  exists x, deref_lane sizeof_T sizeof_S m (simd_it p j) = Ok x /\
            du1simd.cells_of x = slice (j * k) k cells.
Proof.
  intros Hj Hfit. unfold deref_lane; simpl. rewrite Z.eqb_refl.
  destruct (Z.leb_spec 0 j); [|lia].
  destruct (Z.leb_spec (j * k + k) (Z.of_nat (length cells))); [|lia]. simpl.
  destruct (reinterpret_cells (slice (j * k) k cells)) as (x & Hx & Hc).
  { rewrite length_slice by nia. rewrite Hlanes. lia. }
  exists x. unfold slice in Hx. rewrite Hx. split; [reflexivity | assumption].
Qed.

Lemma deref_lane_out_of_bounds j :
  Z.of_nat (length cells) < j * k + k ->
  deref_lane sizeof_T sizeof_S m (simd_it p j) = Fault (LaneOutOfBounds j).
Proof.
  intros Hj. unfold deref_lane; simpl. rewrite Z.eqb_refl.
  destruct (Z.leb_spec (j * k + k) (Z.of_nat (length cells))); [lia|].
  rewrite andb_false_r. reflexivity.
Qed.

Lemma sit_neq_same_base j j' :
  sit_neq (simd_it p j) (simd_it p j') = negb (j =? j').
Proof. unfold sit_neq; simpl. rewrite Z.eqb_refl. reflexivity. Qed.

Lemma sit_eq_same_base j j' :
  sit_eq (simd_it p j) (simd_it p j') = (j =? j').
Proof. unfold sit_eq; simpl. rewrite Z.eqb_refl. reflexivity. Qed.

(** The lane loop adds the whole lanes [[j, je)] to the accumulator and
    stops with the cursor on [je]. *)
Lemma simd_sum_loop_spec je :
  je * k <= Z.of_nat (length cells) ->
  forall fuel j acc,
    0 <= j <= je -> (Z.to_nat (je - j) < fuel)%nat ->
    exists acc',
      du1example.simd_sum_loop bits sizeof_T sizeof_S fuel m
        (simd_it p j) (simd_it p je) acc = Ok (acc', simd_it p je) /\
      du1simd.sum acc' =
        eadd (du1simd.sum acc) (esum (slice (j * k) ((je - j) * k) cells)).
Proof.
  intros Hje. induction fuel as [|fuel IH]; intros j acc Hj Hf; [lia|].
  simpl. rewrite sit_neq_same_base.
  destruct (Z.eqb_spec j je) as [->|Hne]; simpl.
  - exists acc. split; [reflexivity|].
    rewrite Z.sub_diag. simpl. unfold esum; simpl. symmetry. apply eadd_0_r.
  - destruct (deref_lane_in_bounds j ltac:(lia) ltac:(nia)) as (x & Hd & Hx).
    rewrite Hd. simpl. unfold sit_incr; simpl.
    rewrite ptrdiff_in_buffer by nia.
    destruct (IH (j + 1) (du1simd.add acc x) ltac:(lia) ltac:(lia))
      as (acc' & Hl & Hs).
    exists acc'. split; [assumption|].
    rewrite Hs, sum_add, (sum_cells x), Hx, <- eadd_assoc, <- esum_app.
    replace ((j + 1) * k) with (j * k + k) by lia.
    rewrite slice_app by nia.
    replace (k + (je - (j + 1)) * k) with ((je - j) * k) by lia.
    reflexivity.
Qed.

Lemma gap_ranges g u :
  0 <= g < k -> - k < u <= 0 ->
  0 <= g < Z.of_nat (du1simd.carrier_lanes (A := A) (S := S)) /\
  - Z.of_nat (du1simd.carrier_lanes (A := A) (S := S)) < u <= 0.
Proof. lia. Qed.

(** What is left of a lane after each kind of masking, as a sum. *)
Lemma sum_mask_lower (x : S) g :
  0 <= g < k ->
  exists y, du1simd.mask_lower x g = Ok y /\
            du1simd.sum y = esum (slice g (k - g) (du1simd.cells_of x)).
Proof.
  intros Hg. destruct (gap_ranges g 0 Hg ltac:(lia)) as [Hg' _].
  destruct (mask_lower_cells x g Hg') as (y & Hy & Hc).
  exists y. split; [assumption|].
  rewrite sum_cells, Hc, esum_app, esum_zeros, eadd_0_l.
  unfold slice. rewrite firstn_all2; [reflexivity|].
  rewrite length_skipn, cells_length. lia.
Qed.

Lemma sum_mask_upper (x : S) u :
  - k < u <= 0 ->
  exists y, du1simd.mask_upper x u = Ok y /\
            du1simd.sum y = esum (slice 0 (u + k) (du1simd.cells_of x)).
Proof.
  intros Hu. destruct (gap_ranges 0 u ltac:(lia) Hu) as [_ Hu'].
  destruct (mask_upper_cells x u Hu') as (y & Hy & Hc).
  exists y. split; [assumption|].
  rewrite sum_cells, Hc, esum_app, esum_zeros, eadd_0_r.
  unfold slice. simpl. rewrite Hlanes. reflexivity.
Qed.

Lemma sum_mask_both (x : S) g u :
  0 <= g < k -> - k < u <= 0 -> g <= u + k ->
  exists y, du1simd.mask_both x g u = Ok y /\
            du1simd.sum y = esum (slice g (u + k - g) (du1simd.cells_of x)).
Proof.
  intros Hg Hu Hgu. destruct (gap_ranges g u Hg Hu) as [Hg' Hu'].
  rewrite mask_both_seq by assumption.
  destruct (mask_lower_cells x g Hg') as (y1 & Hy1 & Hc1).
  rewrite Hy1. simpl.
  destruct (mask_upper_cells y1 u Hu') as (y & Hy & Hc).
  exists y. split; [assumption|].
  rewrite sum_cells, Hc, Hc1, esum_app, esum_zeros, eadd_0_r.
  rewrite firstn_app, repeat_length.
  rewrite firstn_all2 by (rewrite repeat_length; lia).
  rewrite esum_app, esum_zeros, eadd_0_l.
  unfold slice. rewrite <- Hlanes.
  replace (Z.to_nat (u + k) - Z.to_nat g)%nat with (Z.to_nat (u + k - g)) by lia.
  reflexivity.
Qed.

(** [tester::simd_sum] folds the cells at the offsets [b] through [e],
    the cell at [e] included, whenever the lane of [e] is allocated. *)
Lemma simd_sum_inclusive fuel b e :
  0 <= b <= e ->
  e / k * k + k <= Z.of_nat (length cells) ->
  (Z.to_nat (e / k - b / k) < fuel)%nat ->
  du1example.simd_sum bits sizeof_T sizeof_S fuel m (iterator p b) (iterator p e)
    = Ok (plain_fold m b (e + 1)).
Proof.
  intros Hbe Hfit Hf.
  pose proof (Z.div_mod b k ltac:(lia)) as Hdb.
  pose proof (Z.mod_pos_bound b k ltac:(lia)) as Hmb.
  pose proof (Z.div_mod e k ltac:(lia)) as Hde.
  pose proof (Z.mod_pos_bound e k ltac:(lia)) as Hme.
  assert (Hqb : 0 <= b / k) by (apply Z.div_pos; lia).
  assert (Hqbe : b / k <= e / k) by (apply Z.div_le_mono; lia).
  unfold du1example.simd_sum, lower_block, upper_block, lower_offset,
    upper_offset. simpl base. simpl offset.
  rewrite !quot_div_nonneg, !rem_mod_nonneg by lia.
  rewrite ptrdiff_in_buffer by nia.
  rewrite sit_eq_same_base.
  destruct (Z.eqb_spec (b / k) (e / k + 1)) as [E|_]; [lia|].
  unfold sit_decr. simpl sbase. simpl soffset.
  replace (e / k + 1 - 1) with (e / k) by lia.
  rewrite ptrdiff_in_buffer by nia.
  rewrite sit_eq_same_base.
  unfold plain_fold.
  destruct (Z.eqb_spec (b / k) (e / k)) as [E|E].
  - (* the range lies in one lane *)
    destruct (deref_lane_in_bounds (b / k) Hqb ltac:(nia)) as (x & Hx & Hcx).
    rewrite Hx. simpl.
    destruct (sum_mask_both x (b mod k) (e mod k - (k - 1))
                ltac:(lia) ltac:(lia) ltac:(nia)) as (y & Hy & Hs).
    rewrite Hy. simpl. rewrite Hs, Hcx.
    rewrite slice_slice by nia.
    rewrite <- E in Hde. do 2 f_equal. f_equal; lia.
  - (* a start lane, whole lanes, an end lane *)
    destruct (deref_lane_in_bounds (b / k) Hqb ltac:(nia)) as (x & Hx & Hcx).
    rewrite Hx. simpl.
    destruct (sum_mask_lower x (b mod k) ltac:(lia)) as (acc & Hacc & Hs0).
    rewrite Hacc. simpl. unfold sit_incr. simpl sbase. simpl soffset.
    rewrite ptrdiff_in_buffer by nia.
    destruct (simd_sum_loop_spec (e / k) ltac:(nia) fuel (b / k + 1) acc
                ltac:(lia) ltac:(lia)) as (acc' & Hloop & Hs1).
    rewrite Hloop. simpl.
    destruct (deref_lane_in_bounds (e / k) ltac:(lia) Hfit) as (x' & Hx' & Hcx').
    rewrite Hx'. simpl.
    destruct (sum_mask_upper x' (e mod k - (k - 1)) ltac:(lia)) as (y & Hy & Hs2).
    rewrite Hy. simpl.
    rewrite sum_add, Hs1, Hs0, Hs2, Hcx, Hcx'.
    rewrite !slice_slice by nia.
    rewrite <- !esum_app.
    replace (b / k * k + b mod k) with b by nia.
    replace ((b / k + 1) * k) with (b + (k - b mod k)) by nia.
    rewrite slice_app by nia.
    replace (e / k * k + 0) with (b + (k - b mod k + (e / k - (b / k + 1)) * k))
      by nia.
    rewrite slice_app by nia.
    f_equal. f_equal. f_equal. nia.
Qed.

End Reduction.





(** ** Where the lane-wise reduction leaves the plain fold *)

(** One cell more: the fold over [[b, e + 1)] is the fold over [[b, e)]
    plus the cell at [e]. *)
Lemma plain_fold_through_end (A : Type) {EA : Elem A} (m : memory A) b e x :
  0 <= b <= e ->
  nth_error (m_cells m) (Z.to_nat e) = Some x ->
  plain_fold m b (e + 1) = eadd (plain_fold m b e) x.
Proof.
  intros Hbe Hx. unfold plain_fold, esum.
  replace (e + 1 - b) with ((e - b) + 1) by lia.
  rewrite <- (slice_app b (e - b) 1) by lia.
  rewrite fold_left_app.
  replace (b + (e - b)) with e by lia.
  rewrite (slice_cons e 1 (m_cells m) x) by (assumption || lia).
  reflexivity.
Qed.

(** On an empty range the lane-wise reduction returns the cell at [b]: the
    upper block of [b] is one past its lower block, so the first test
    [bb == ee] is false and the single-lane branch keeps index [b % k]. *)
Lemma simd_sum_empty_range
    (A S : Type) {EA : Elem A} {EL : ElemLaws A}
    {SI : du1simd.simd A S} {SL : SimdLaws A S}
    (bits sizeof_T sizeof_S : Z) (m : memory A) (fuel : nat) (ob : Z) (x : A) :
  let k := lane_width sizeof_T sizeof_S in
  1 <= bits -> 1 <= k ->
  k = Z.of_nat (du1simd.carrier_lanes (A := A) (S := S)) ->
  Z.of_nat (length (m_cells m)) <= Int.PTRDIFF_MAX bits ->
  0 <= ob -> ob / k * k + k <= Z.of_nat (length (m_cells m)) ->
  (0 < fuel)%nat ->
  nth_error (m_cells m) (Z.to_nat ob) = Some x ->
  du1example.simd_sum bits sizeof_T sizeof_S fuel m
    (iterator (m_base m) ob) (iterator (m_base m) ob) = Ok x.
Proof.
  intros k Hbits Hk Hlanes Hlen Hob Hfit Hf Hx.
  rewrite (simd_sum_inclusive bits sizeof_T sizeof_S m Hbits Hlanes Hk Hlen)
    by (try assumption; lia).
  rewrite (plain_fold_through_end A m ob ob x) by (assumption || lia).
  unfold plain_fold, esum. rewrite Z.sub_diag. simpl. f_equal. apply eadd_0_l.
Qed.

(** On any range [b <= e] whose end lane is allocated, the lane-wise
    reduction is the plain fold over [[b, e)] plus the cell at [e]. *)
Lemma simd_sum_is_plain_fold_plus_end_cell
    (A S : Type) {EA : Elem A} {EL : ElemLaws A}
    {SI : du1simd.simd A S} {SL : SimdLaws A S}
    (bits sizeof_T sizeof_S : Z) (m : memory A) (fuel : nat) (ob oe : Z) (x : A) :
  let k := lane_width sizeof_T sizeof_S in
  1 <= bits -> 1 <= k ->
  k = Z.of_nat (du1simd.carrier_lanes (A := A) (S := S)) ->
  Z.of_nat (length (m_cells m)) <= Int.PTRDIFF_MAX bits ->
  0 <= ob <= oe -> oe / k * k + k <= Z.of_nat (length (m_cells m)) ->
  (Z.to_nat (oe / k - ob / k) < fuel)%nat ->
  nth_error (m_cells m) (Z.to_nat oe) = Some x ->
  du1example.simd_sum bits sizeof_T sizeof_S fuel m
    (iterator (m_base m) ob) (iterator (m_base m) oe)
    = Ok (eadd (plain_fold m ob oe) x).
Proof.
  intros k Hbits Hk Hlanes Hlen Hob Hfit Hf Hx.
  rewrite (simd_sum_inclusive bits sizeof_T sizeof_S m Hbits Hlanes Hk Hlen)
    by assumption.
  rewrite (plain_fold_through_end A m ob oe x) by assumption.
  reflexivity.
Qed.

(** With the whole container as the range and a size that is a multiple of
    [k], the decremented end lane has index [rounded_count / k]: the first
    lane after the allocated ones. *)
Lemma end_lane_index_at_multiple bits sizeof_T sizeof_S (v : simd_vector) :
  let k := lane_width sizeof_T sizeof_S in
  1 <= bits -> 1 <= k ->
  0 <= content_size v < Int.PTRDIFF_MAX bits ->
  content_size v mod k = 0 ->
  soffset (sit_decr bits (upper_block bits sizeof_T sizeof_S (end_ bits v)))
    = rounded_count bits sizeof_T sizeof_S (content_size v) / k.
Proof.
  intros k Hbits Hk Hs Hm. unfold rounded_count. fold k. rewrite Hm. simpl.
  assert (Hq : 0 <= content_size v / k <= content_size v).
  { split; [apply Z.div_pos; lia|].
    apply Z.div_le_upper_bound; [lia|]. nia. }
  unfold Int.PTRDIFF_MAX in Hs.
  rewrite (to_ptrdiff_t_small bits (content_size v))
    by (try assumption; unfold Int.PTRDIFF_MIN, Int.PTRDIFF_MAX; lia).
  fold k. rewrite quot_div_nonneg by lia.
  rewrite (to_ptrdiff_t_small bits (content_size v / k + 1))
    by (try assumption; unfold Int.PTRDIFF_MIN, Int.PTRDIFF_MAX; lia).
  replace (content_size v / k + 1 - 1) with (content_size v / k) by lia.
  apply to_ptrdiff_t_small; [assumption|].
  unfold Int.PTRDIFF_MIN, Int.PTRDIFF_MAX; lia.
Qed.

(** C1 at a failing input: four elements [1, 2, 3, 4], the range
    [[begin(), begin() + 1)].  The plain fold is [1]; [simd_sum] returns
    [3], with four-element carriers and with one-element carriers alike. *)
Theorem simd_sum_differs_from_plain_fold :
  let v := mk_simd_vector 4 4096 4096 (4096 + 4 * 4) 4 in
  let m := mk_memory 4096 [1; 2; 3; 4] in
  let b := it_plus 64 (begin_ v) 0 in
  let e := it_plus 64 (begin_ v) 1 in
  du1example.sum 64 8 m b e = Ok 1 /\
  plain_fold m (offset b) (offset e) = 1 /\
  du1example.simd_sum (S := du1simd.m128 Z) 64 4 16 8 m b e = Ok 3 /\
  du1example.simd_sum (S := Z) 64 4 4 8 m b e = Ok 3.
Proof. repeat split; vm_compute; reflexivity. Qed.

(** C2 at a failing input: four elements [1, 2, 3, 4] and the empty range
    at [begin() + 2].  The plain fold is the identity [0]; [simd_sum] does
    not take its [bb == ee] exit (the two lane cursors are at 0 and 1) and
    returns the element at offset 2. *)
Theorem simd_sum_on_empty_range :
  let v := mk_simd_vector 4 4096 4096 (4096 + 4 * 4) 4 in
  let m := mk_memory 4096 [1; 2; 3; 4] in
  let b := it_plus 64 (begin_ v) 2 in
  it_eq b b = true /\
  du1example.sum 64 8 m b b = Ok 0 /\
  sit_eq (lower_block 4 16 b) (upper_block 64 4 16 b) = false /\
  du1example.simd_sum (S := du1simd.m128 Z) 64 4 16 8 m b b = Ok 3 /\
  du1example.simd_sum (S := Z) 64 4 4 8 m b b = Ok 3.
Proof. repeat split; vm_compute; reflexivity. Qed.

(** C10 at a failing input: eight four-byte elements in sixteen-byte lanes,
    so [rounded_count = 8] and the allocation has lanes 0 and 1; on the
    whole range [[begin(), end())] the end lane [simd_sum] dereferences is
    lane 2. *)
Theorem simd_sum_end_lane_past_allocation :
  exists v,
    simd_vector_ctor 64 4 16 (aligned_alloc_at 4096) (operator_new_at 4096) GNUC 8
      = ([call_aligned_alloc 16 32], inr v) /\
    rounded_count 64 4 16 8 / lane_width 4 16 = 2 /\
    soffset (sit_decr 64 (upper_block 64 4 16 (end_ 64 v))) = 2 /\
    du1example.simd_sum (S := du1simd.m128 Z) 64 4 16 8
      (mk_memory (aligned_begin v) [1; 2; 3; 4; 5; 6; 7; 8]) (begin_ v) (end_ 64 v)
      = Fault (LaneOutOfBounds 2).
Proof.
  eexists. split; [vm_compute; reflexivity|].
  repeat split; vm_compute; reflexivity.
Qed.

(** * Further properties of the iterators *)

Lemma in_ptrdiff_range bits z :
  1 <= bits -> Int.PTRDIFF_MIN bits <= z <= Int.PTRDIFF_MAX bits ->
  Int.to_ptrdiff_t bits z = z.
Proof. intros; apply to_ptrdiff_t_small; assumption. Qed.

(** X1: random-access arithmetic of both iterator types.  As long as the
    offsets involved stay representable in [std::ptrdiff_t], adding [n] and
    subtracting it again gives the iterator back, the difference between
    [a + n] and [a] is [n], two additions are the addition of the sum, and
    pre-increment followed by pre-decrement is the identity. *)
Theorem iterator_arithmetic_round_trip bits
    (a : simd_vector_iterator) (s : simd_vector_simd_iterator) n n' :
  1 <= bits ->
  Int.PTRDIFF_MIN bits <= n <= Int.PTRDIFF_MAX bits ->
  Int.PTRDIFF_MIN bits <= offset a <= Int.PTRDIFF_MAX bits ->
  Int.PTRDIFF_MIN bits <= offset a + n <= Int.PTRDIFF_MAX bits ->
  Int.PTRDIFF_MIN bits <= offset a + n + n' <= Int.PTRDIFF_MAX bits ->
  Int.PTRDIFF_MIN bits <= offset a + 1 <= Int.PTRDIFF_MAX bits ->
  Int.PTRDIFF_MIN bits <= soffset s <= Int.PTRDIFF_MAX bits ->
  Int.PTRDIFF_MIN bits <= soffset s + n <= Int.PTRDIFF_MAX bits ->
  Int.PTRDIFF_MIN bits <= soffset s + n + n' <= Int.PTRDIFF_MAX bits ->
  Int.PTRDIFF_MIN bits <= soffset s + 1 <= Int.PTRDIFF_MAX bits ->
  (it_minus bits (it_plus bits a n) n = a /\
   it_diff bits (it_plus bits a n) a = n /\
   it_plus bits (it_plus bits a n) n' = it_plus bits a (n + n') /\
   it_decr bits (it_incr bits a) = a /\
   it_incr bits a = it_plus bits a 1) /\
  (sit_minus bits (sit_plus bits s n) n = s /\
   sit_diff bits (sit_plus bits s n) s = n /\
   sit_plus bits (sit_plus bits s n) n' = sit_plus bits s (n + n') /\
   sit_decr bits (sit_incr bits s) = s /\
   sit_incr bits s = sit_plus bits s 1).
Proof.
  intros Hb Hn Ha Han Hann Ha1 Hs Hsn Hsnn Hs1.
  destruct a as [pa oa], s as [ps os]. simpl in *.
  unfold it_minus, it_plus, it_sub_assign, it_add_assign, it_diff, it_decr, it_incr,
    sit_minus, sit_plus, sit_sub_assign, sit_add_assign, sit_diff, sit_decr, sit_incr.
  simpl.
  rewrite !(in_ptrdiff_range bits (oa + n)), !(in_ptrdiff_range bits (os + n))
    by assumption.
  rewrite !(in_ptrdiff_range bits (oa + 1)), !(in_ptrdiff_range bits (os + 1))
    by assumption.
  replace (oa + n - n) with oa by lia. replace (oa + n - oa) with n by lia.
  replace (oa + 1 - 1) with oa by lia.
  replace (os + n - n) with os by lia. replace (os + n - os) with n by lia.
  replace (os + 1 - 1) with os by lia.
  rewrite !(in_ptrdiff_range bits oa), !(in_ptrdiff_range bits os),
    !(in_ptrdiff_range bits n) by assumption.
  rewrite <- !Z.add_assoc.
  repeat split; reflexivity.
Qed.

Lemma iterator_arithmetic_round_trip_witness :
  let a := iterator 4096 7 in
  let s := simd_it 4096 1 in
  (it_minus 64 (it_plus 64 a 5) 5 = a /\
   it_diff 64 (it_plus 64 a 5) a = 5 /\
   it_plus 64 (it_plus 64 a 5) (-3) = it_plus 64 a (5 + -3) /\
   it_decr 64 (it_incr 64 a) = a /\
   it_incr 64 a = it_plus 64 a 1) /\
  (sit_minus 64 (sit_plus 64 s 5) 5 = s /\
   sit_diff 64 (sit_plus 64 s 5) s = 5 /\
   sit_plus 64 (sit_plus 64 s 5) (-3) = sit_plus 64 s (5 + -3) /\
   sit_decr 64 (sit_incr 64 s) = s /\
   sit_incr 64 s = sit_plus 64 s 1).
Proof.
  intros a s.
  apply (iterator_arithmetic_round_trip 64 a s 5 (-3));
    vm_compute; try split; discriminate || reflexivity.
Defined.

(** X2: over one buffer the six comparison operators of the element
    iterator order positions by their offsets, [!=] is the negation of [==],
    and two positions that are [<=] each other are [==]. *)
Theorem comparisons_over_one_buffer sizeof_T (a v : simd_vector_iterator) :
  0 < sizeof_T ->
  base a = base v ->
  it_lt sizeof_T a v = (offset a <? offset v) /\
  it_le sizeof_T a v = (offset a <=? offset v) /\
  it_gt sizeof_T a v = (offset v <? offset a) /\
  it_ge sizeof_T a v = (offset v <=? offset a) /\
  it_eq a v = (offset a =? offset v) /\
  it_neq a v = negb (it_eq a v) /\
  it_le sizeof_T a v && it_le sizeof_T v a = it_eq a v.
Proof.
  intros HT Hbase. destruct a as [pa oa], v as [pv ov]. simpl in Hbase. subst pv.
  unfold it_lt, it_le, it_gt, it_ge, it_eq, it_neq. simpl.
  rewrite Z.eqb_refl. simpl.
  rewrite Z.gtb_ltb, Z.geb_leb.
  repeat split.
  - destruct (Z.ltb_spec oa ov), (Z.ltb_spec (pa + oa * sizeof_T) (pa + ov * sizeof_T));
      try reflexivity; nia.
  - destruct (Z.leb_spec oa ov), (Z.leb_spec (pa + oa * sizeof_T) (pa + ov * sizeof_T));
      try reflexivity; nia.
  - destruct (Z.ltb_spec ov oa), (Z.ltb_spec (pa + ov * sizeof_T) (pa + oa * sizeof_T));
      try reflexivity; nia.
  - destruct (Z.leb_spec ov oa), (Z.leb_spec (pa + ov * sizeof_T) (pa + oa * sizeof_T));
      try reflexivity; nia.
  - destruct (Z.leb_spec (pa + oa * sizeof_T) (pa + ov * sizeof_T)),
      (Z.leb_spec (pa + ov * sizeof_T) (pa + oa * sizeof_T)),
      (Z.eqb_spec oa ov); try reflexivity; nia.
Qed.

Lemma comparisons_over_one_buffer_witness :
  let a := iterator 4096 3 in
  let v := iterator 4096 7 in
  it_lt 4 a v = (offset a <? offset v) /\
  it_le 4 a v = (offset a <=? offset v) /\
  it_gt 4 a v = (offset v <? offset a) /\
  it_ge 4 a v = (offset v <=? offset a) /\
  it_eq a v = (offset a =? offset v) /\
  it_neq a v = negb (it_eq a v) /\
  it_le 4 a v && it_le 4 v a = it_eq a v.
Proof.
  intros a v. apply (comparisons_over_one_buffer 4 a v); reflexivity.
Defined.

(** X3: equality compares the pair (base, offset) while the ordering
    compares addresses.  An iterator at a non-zero offset and the iterator at
    offset 0 of a buffer that starts at the same address are [<=] and [>=]
    each other, neither [<] nor [>], and still [!=]. *)
Theorem comparisons_across_buffers sizeof_T (a : simd_vector_iterator) :
  0 < sizeof_T ->
  offset a <> 0 ->
  let v := iterator (base a + offset a * sizeof_T) 0 in
  it_le sizeof_T a v = true /\ it_ge sizeof_T a v = true /\
  it_lt sizeof_T a v = false /\ it_gt sizeof_T a v = false /\
  it_eq a v = false /\ it_neq a v = true.
Proof.
  intros HT Ho v. subst v. destruct a as [pa oa]. simpl in *.
  unfold it_le, it_ge, it_lt, it_gt, it_eq, it_neq. simpl.
  rewrite Z.gtb_ltb, Z.geb_leb, Z.add_0_r, Z.leb_refl, Z.ltb_irrefl.
  destruct (Z.eqb_spec pa (pa + oa * sizeof_T)) as [E|E]; [nia|].
  repeat split; reflexivity.
Qed.

Lemma comparisons_across_buffers_witness :
  let a := iterator 4096 4 in
  let v := iterator (base a + offset a * 1) 0 in
  it_le 1 a v = true /\ it_ge 1 a v = true /\
  it_lt 1 a v = false /\ it_gt 1 a v = false /\
  it_eq a v = false /\ it_neq a v = true.
Proof.
  apply (comparisons_across_buffers 1 (iterator 4096 4)).
  - reflexivity.
  - simpl. discriminate.
Defined.

(** * Further properties of the lane mapping and of the reduction *)

Lemma nth_error_slice {A : Type} (lo n : Z) (l : list A) (i : nat) :
  0 <= lo -> (i < Z.to_nat n)%nat ->
  nth_error (slice lo n l) i = nth_error l (Z.to_nat (lo + Z.of_nat i)).
Proof.
  intros Hlo Hi. unfold slice.
  rewrite nth_error_firstn.
  destruct (Nat.ltb_spec i (Z.to_nat n)); [|lia].
  rewrite nth_error_skipn. f_equal. lia.
Qed.

(** X4: the lane mapping is exact.  For a position whose lane is allocated,
    the lane [lower_block()] refers to, read at index [lower_offset()], is
    the element the position itself refers to. *)
Theorem lower_block_round_trip
    (A S : Type) {EA : Elem A} {SI : du1simd.simd A S} {SL : SimdLaws A S}
    (sizeof_T sizeof_S : Z) (m : memory A) (it : simd_vector_iterator) :
  let k := lane_width sizeof_T sizeof_S in
  1 <= k ->
  k = Z.of_nat (du1simd.carrier_lanes (A := A) (S := S)) ->
  base it = m_base m ->
  0 <= offset it ->
  offset it / k * k + k <= Z.of_nat (length (m_cells m)) ->
  exists x v,
    deref_lane sizeof_T sizeof_S m (lower_block sizeof_T sizeof_S it) = Ok x /\
    deref m it = Ok v /\
    nth_error (du1simd.cells_of x)
              (Z.to_nat (lower_offset sizeof_T sizeof_S it)) = Some v.
Proof.
  intros k Hk Hlanes Hbase Ho Hfit. destruct it as [p o]. simpl in *. subst p.
  pose proof (Z.div_mod o k ltac:(lia)) as Hd.
  pose proof (Z.mod_pos_bound o k ltac:(lia)) as Hm.
  assert (Hq : 0 <= o / k) by (apply Z.div_pos; lia).
  unfold lower_block, lower_offset. simpl. fold k.
  rewrite quot_div_nonneg, rem_mod_nonneg by lia.
  destruct (deref_lane_in_bounds sizeof_T sizeof_S m Hlanes Hk (o / k) Hq Hfit)
    as (x & Hx & Hcx).
  destruct (deref_in_bounds (S := S) m o ltac:(nia)) as (v & Hv & Hnth).
  exists x, v. split; [exact Hx|]. split; [exact Hv|].
  fold k in Hcx. rewrite Hcx, nth_error_slice by nia.
  rewrite <- Hnth. f_equal. rewrite Z2Nat.id by lia. f_equal. lia.
Qed.

Lemma lower_block_round_trip_witness :
  let m := mk_memory 4096 [10; 11; 12; 13; 14; 15; 16; 17] in
  let it := iterator 4096 6 in
  exists x v,
    deref_lane (S := du1simd.m128 Z) 4 16 m (lower_block 4 16 it) = Ok x /\
    deref m it = Ok v /\
    nth_error (du1simd.cells_of x) (Z.to_nat (lower_offset 4 16 it)) = Some v.
Proof.
  intros m it.
  apply (lower_block_round_trip Z (du1simd.m128 Z) 4 16 m it).
  - vm_compute. discriminate.
  - reflexivity.
  - reflexivity.
  - simpl. lia.
  - vm_compute. discriminate.
Defined.

(** X5: the first exit of [simd_sum] ([if (bb == ee) return 0;]) is taken
    exactly when the lane of [e] is the one just before the lane of [b],
    which never happens for [b <= e]; when it is taken the result is [0]
    and no memory is read. *)
Theorem zero_lane_exit_only_for_reversed_ranges
    (A S : Type) {EA : Elem A} {SI : du1simd.simd A S}
    (bits sizeof_T sizeof_S : Z) (b e : simd_vector_iterator) :
  let k := lane_width sizeof_T sizeof_S in
  1 <= bits -> 1 <= k ->
  base b = base e ->
  0 <= offset b -> 0 <= offset e < Int.PTRDIFF_MAX bits ->
  (sit_eq (lower_block sizeof_T sizeof_S b) (upper_block bits sizeof_T sizeof_S e) = true
     <-> offset e / k + 1 = offset b / k) /\
  (offset b <= offset e ->
     sit_eq (lower_block sizeof_T sizeof_S b) (upper_block bits sizeof_T sizeof_S e)
       = false) /\
  (offset e / k + 1 = offset b / k ->
     offset e < offset b /\
     forall fuel (m : memory A),
       du1example.simd_sum (S := S) bits sizeof_T sizeof_S fuel m b e = Ok ezero).
Proof.
  intros k Hbits Hk Hbase Hb He.
  destruct b as [pb ob], e as [pe oe]. simpl in *. subst pe.
  assert (Hqe : 0 <= oe / k <= oe).
  { split; [apply Z.div_pos; lia|]. apply Z.div_le_upper_bound; [lia|]. nia. }
  assert (Hup : Int.to_ptrdiff_t bits (oe / k + 1) = oe / k + 1).
  { apply to_ptrdiff_t_small; [assumption|].
    unfold Int.PTRDIFF_MIN, Int.PTRDIFF_MAX in *. lia. }
  assert (Heq : sit_eq (lower_block sizeof_T sizeof_S (iterator pb ob))
                       (upper_block bits sizeof_T sizeof_S (iterator pb oe))
                = (ob / k =? oe / k + 1)).
  { unfold sit_eq, lower_block, upper_block. simpl. fold k.
    rewrite !quot_div_nonneg by lia. rewrite Hup, Z.eqb_refl. reflexivity. }
  split; [|split].
  - rewrite Heq. rewrite Z.eqb_eq. split; intros; lia.
  - intros Hle. rewrite Heq. apply Z.eqb_neq.
    pose proof (Z.div_le_mono ob oe k ltac:(lia) Hle). lia.
  - intros Hlane. split.
    + destruct (Z.lt_ge_cases oe ob) as [|Hge]; [assumption|].
      pose proof (Z.div_le_mono ob oe k ltac:(lia) Hge). lia.
    + intros fuel m. unfold du1example.simd_sum. rewrite Heq.
      destruct (Z.eqb_spec (ob / k) (oe / k + 1)); [reflexivity | lia].
Qed.

Lemma zero_lane_exit_only_for_reversed_ranges_witness :
  let b := iterator 4096 5 in
  let e := iterator 4096 2 in
  (sit_eq (lower_block 4 16 b) (upper_block 64 4 16 e) = true
     <-> offset e / lane_width 4 16 + 1 = offset b / lane_width 4 16) /\
  (offset b <= offset e ->
     sit_eq (lower_block 4 16 b) (upper_block 64 4 16 e) = false) /\
  (offset e / lane_width 4 16 + 1 = offset b / lane_width 4 16 ->
     offset e < offset b /\
     forall fuel (m : memory Z),
       du1example.simd_sum (S := du1simd.m128 Z) 64 4 16 fuel m b e = Ok ezero).
Proof.
  intros b e.
  apply (zero_lane_exit_only_for_reversed_ranges Z (du1simd.m128 Z) 64 4 16 b e).
  - lia.
  - vm_compute. discriminate.
  - reflexivity.
  - simpl. lia.
  - vm_compute. split; [discriminate | reflexivity].
Defined.

(** X6: when the size of the container is a multiple of [k] the allocation
    ends with the last logical element, and [simd_sum] from any position up
    to [end()] dereferences the lane [size / k], the first one past the
    allocation, after the lanes before it have been read and folded. *)
Theorem simd_sum_up_to_end_leaves_allocation
    (A S : Type) {EA : Elem A} {EL : ElemLaws A}
    {SI : du1simd.simd A S} {SL : SimdLaws A S}
    (bits sizeof_T sizeof_S : Z) (v : simd_vector) (m : memory A)
    (fuel : nat) (ob : Z) :
  let k := lane_width sizeof_T sizeof_S in
  let s := content_size v in
  1 <= bits -> 1 <= k ->
  k = Z.of_nat (du1simd.carrier_lanes (A := A) (S := S)) ->
  m_base m = aligned_begin v ->
  Z.of_nat (length (m_cells m)) = rounded_count bits sizeof_T sizeof_S s ->
  s mod k = 0 ->
  0 <= ob <= s -> s < Int.PTRDIFF_MAX bits ->
  (Z.to_nat (s / k - ob / k) < fuel)%nat ->
  rounded_count bits sizeof_T sizeof_S s / k = s / k /\
  du1example.simd_sum bits sizeof_T sizeof_S fuel m
    (it_plus bits (begin_ v) ob) (end_ bits v)
    = Fault (LaneOutOfBounds (s / k)).
Proof.
  intros k s Hbits Hk Hlanes Hbase Hlen Hmod Hob Hs Hf.
  assert (Hrc : rounded_count bits sizeof_T sizeof_S s = s).
  { unfold rounded_count. fold k. rewrite Hmod. reflexivity. }
  rewrite Hrc in Hlen. split; [rewrite Hrc; reflexivity|].
  assert (Hlen' : Z.of_nat (length (m_cells m)) <= Int.PTRDIFF_MAX bits) by lia.
  pose proof (Z.div_mod s k ltac:(lia)) as Hds. rewrite Hmod in Hds.
  pose proof (Z.div_mod ob k ltac:(lia)) as Hdb.
  pose proof (Z.mod_pos_bound ob k ltac:(lia)) as Hmb.
  assert (Hqb : 0 <= ob / k) by (apply Z.div_pos; lia).
  assert (Hqbs : ob / k <= s / k) by (apply Z.div_le_mono; lia).
  assert (Hqs : s / k <= s) by (apply Z.div_le_upper_bound; [lia | nia]).
  assert (Hsmall : forall z, -1 <= z <= s + 1 -> Int.to_ptrdiff_t bits z = z).
  { intros z Hz. apply to_ptrdiff_t_small; [assumption|].
    unfold Int.PTRDIFF_MIN, Int.PTRDIFF_MAX in *. lia. }
  unfold it_plus, it_add_assign, begin_, end_. simpl. fold s.
  rewrite (Hsmall ob), (Hsmall s) by lia. rewrite <- Hbase.
  unfold du1example.simd_sum, lower_block, upper_block, lower_offset,
    upper_offset. simpl base. simpl offset. fold k.
  rewrite !quot_div_nonneg, !rem_mod_nonneg by lia.
  rewrite (Hsmall (s / k + 1)) by lia.
  rewrite sit_eq_same_base.
  destruct (Z.eqb_spec (ob / k) (s / k + 1)) as [E|_]; [lia|].
  unfold sit_decr. simpl sbase. simpl soffset.
  replace (s / k + 1 - 1) with (s / k) by lia.
  rewrite (Hsmall (s / k)) by lia.
  rewrite sit_eq_same_base.
  assert (Hout : deref_lane sizeof_T sizeof_S m (simd_it (m_base m) (s / k))
                 = Fault (LaneOutOfBounds (s / k))).
  { apply deref_lane_out_of_bounds. fold k. nia. }
  destruct (Z.eqb_spec (ob / k) (s / k)) as [E|E].
  - rewrite E, Hout. reflexivity.
  - destruct (deref_lane_in_bounds sizeof_T sizeof_S m Hlanes Hk (ob / k) Hqb
                ltac:(fold k; nia)) as (x & Hx & _).
    rewrite Hx. simpl.
    destruct (sum_mask_lower sizeof_T sizeof_S m Hlanes Hk x (ob mod k)
                ltac:(fold k; lia)) as (acc & Hacc & _).
    rewrite Hacc. simpl. unfold sit_incr. simpl sbase. simpl soffset.
    rewrite (Hsmall (ob / k + 1)) by lia.
    destruct (simd_sum_loop_spec bits sizeof_T sizeof_S m Hbits Hlanes Hk Hlen'
                (s / k) ltac:(fold k; nia) fuel (ob / k + 1) acc
                ltac:(lia) ltac:(lia)) as (acc' & Hloop & _).
    rewrite Hloop. simpl. rewrite Hout. reflexivity.
Qed.

Lemma simd_sum_up_to_end_leaves_allocation_witness :
  let v := mk_simd_vector 4 4096 4096 (4096 + 8 * 4) 8 in
  let m := mk_memory 4096 [1; 2; 3; 4; 5; 6; 7; 8] in
  rounded_count 64 4 16 (content_size v) / lane_width 4 16
    = content_size v / lane_width 4 16 /\
  du1example.simd_sum (S := du1simd.m128 Z) 64 4 16 4 m
    (it_plus 64 (begin_ v) 1) (end_ 64 v)
    = Fault (LaneOutOfBounds (content_size v / lane_width 4 16)).
Proof.
  intros v m.
  apply (simd_sum_up_to_end_leaves_allocation Z (du1simd.m128 Z) 64 4 16 v m 4 1).
  - lia.
  - vm_compute. discriminate.
  - reflexivity.
  - reflexivity.
  - reflexivity.
  - reflexivity.
  - simpl. lia.
  - vm_compute. reflexivity.
  - vm_compute. lia.
Defined.

(** * Further properties of construction and destruction *)

(** X7: the rounded count is the ceiling [ceil(s / k) * k]; rounding is
    idempotent, adds fewer than [k] elements, and changes nothing exactly
    when [s] is already a multiple of [k] (sizes representable in
    [std::size_t]). *)
Theorem rounded_count_is_ceiling bits sizeof_T sizeof_S s :
  compatible sizeof_T sizeof_S ->
  0 <= s ->
  s + lane_width sizeof_T sizeof_S <= Int.SIZE_MAX bits ->
  let k := lane_width sizeof_T sizeof_S in
  let rc := rounded_count bits sizeof_T sizeof_S s in
  rc = (s + k - 1) / k * k /\
  rounded_count bits sizeof_T sizeof_S rc = rc /\
  rc - s < k /\
  (rc = s <-> s mod k = 0).
Proof.
  intros Hc Hs Hfit k rc.
  destruct (lane_width_pos _ _ Hc) as [Hk _]. fold k in Hk.
  destruct (rounded_count_spec bits sizeof_T sizeof_S s Hc Hs Hfit)
    as (Hrc0 & Hrc & Hmin).
  fold k in Hrc0, Hrc, Hmin. fold rc in Hrc0, Hrc, Hmin.
  destruct (align_up_spec k s ltac:(lia)) as (Hc1 & Hc0 & Hcmin).
  split; [|split; [|split]].
  - specialize (Hmin _ (proj1 Hc1) Hc0). specialize (Hcmin rc (proj1 Hrc) Hrc0). lia.
  - unfold rounded_count at 1. fold k. fold rc. rewrite Hrc0. reflexivity.
  - lia.
  - split; [intros E; rewrite <- E; exact Hrc0|].
    intros Hm. unfold rc, rounded_count. fold k. rewrite Hm. reflexivity.
Qed.

Lemma rounded_count_is_ceiling_witness :
  rounded_count 64 1 4 18 = (18 + lane_width 1 4 - 1) / lane_width 1 4 * lane_width 1 4 /\
  rounded_count 64 1 4 (rounded_count 64 1 4 18) = rounded_count 64 1 4 18 /\
  rounded_count 64 1 4 18 - 18 < lane_width 1 4 /\
  (rounded_count 64 1 4 18 = 18 <-> 18 mod lane_width 1 4 = 0).
Proof.
  apply (rounded_count_is_ceiling 64 1 4 18).
  - unfold compatible. repeat split; reflexivity.
  - lia.
  - vm_compute. discriminate.
Defined.

(** X8: the rounding is done in [std::size_t] and wraps.  For a requested
    count within [k - 1] of [SIZE_MAX] that is not a multiple of [k] (with
    [k] dividing [2^bits]) the rounded count is [0]: under [__GNUC__] the
    constructor asks [aligned_alloc] for zero bytes and, when that returns a
    pointer, yields a container whose [size()] is the requested count. *)
Theorem rounded_count_wraps_to_zero bits sizeof_T sizeof_S aligned_alloc operator_new s :
  compatible sizeof_T sizeof_S ->
  let k := lane_width sizeof_T sizeof_S in
  0 <= bits ->
  2 ^ bits mod k = 0 ->
  Int.SIZE_MAX bits - k < s <= Int.SIZE_MAX bits ->
  s mod k <> 0 ->
  rounded_count bits sizeof_T sizeof_S s = 0 /\
  fst (simd_vector_ctor bits sizeof_T sizeof_S aligned_alloc operator_new GNUC s)
    = [call_aligned_alloc sizeof_S 0] /\
  (aligned_alloc sizeof_S 0 <> 0 ->
   exists v,
     snd (simd_vector_ctor bits sizeof_T sizeof_S aligned_alloc operator_new GNUC s)
       = inr v /\
     size v = s /\ aligned_begin v = aligned_alloc sizeof_S 0).
Proof.
  intros Hc k Hbits Hpow Hs Hm.
  destruct (lane_width_pos _ _ Hc) as [Hk _]. fold k in Hk.
  assert (Hp : 0 < 2 ^ bits) by (apply Z.pow_pos_nonneg; lia).
  unfold Int.SIZE_MAX in Hs.
  pose proof (Z.div_mod (2 ^ bits) k ltac:(lia)) as Hdp. rewrite Hpow in Hdp.
  pose proof (Z.div_mod s k ltac:(lia)) as Hds.
  pose proof (Z.mod_pos_bound s k ltac:(lia)) as Hms.
  assert (Hq : s / k + 1 = 2 ^ bits / k) by nia.
  assert (Hrc : rounded_count bits sizeof_T sizeof_S s = 0).
  { unfold rounded_count. fold k.
    destruct (Z.eqb_spec (s mod k) 0); [contradiction|].
    unfold Int.to_size_t. rewrite Hq.
    replace (2 ^ bits / k * k) with (2 ^ bits) by lia.
    apply Z.mod_same. lia. }
  split; [exact Hrc|].
  unfold simd_vector_ctor. rewrite Hrc. simpl.
  unfold Int.to_size_t. rewrite Z.mod_0_l by lia.
  split; [reflexivity|].
  intros Hnz. destruct (Z.eqb_spec (aligned_alloc sizeof_S 0) 0); [contradiction|].
  eexists. split; [reflexivity|]. split; reflexivity.
Qed.

Lemma rounded_count_wraps_to_zero_witness :
  rounded_count 64 4 16 (2 ^ 64 - 1) = 0 /\
  fst (simd_vector_ctor 64 4 16 (aligned_alloc_at 4096) (operator_new_at 4096)
         GNUC (2 ^ 64 - 1))
    = [call_aligned_alloc 16 0] /\
  (aligned_alloc_at 4096 16 0 <> 0 ->
   exists v,
     snd (simd_vector_ctor 64 4 16 (aligned_alloc_at 4096) (operator_new_at 4096)
            GNUC (2 ^ 64 - 1)) = inr v /\
     size v = 2 ^ 64 - 1 /\ aligned_begin v = aligned_alloc_at 4096 16 0).
Proof.
  apply (rounded_count_wraps_to_zero 64 4 16 (aligned_alloc_at 4096)
           (operator_new_at 4096) (2 ^ 64 - 1)).
  - unfold compatible. repeat split; reflexivity.
  - lia.
  - reflexivity.
  - vm_compute. split; [reflexivity | discriminate].
  - vm_compute. discriminate.
Defined.

(** X9: in the build without [aligned_alloc] the alignment step cannot
    fail.  The block from [new] is [sizeof(S)] bytes longer than the rounded
    region, and the aligned start is less than [sizeof(S)] bytes into it; so
    (sizes representable) construction never throws [alignment_exception],
    it throws only when [new] does, and otherwise the container starts at
    the first multiple of [sizeof(S)] at or after the block. *)
Theorem fallback_alignment_cannot_fail
    bits sizeof_T sizeof_S aligned_alloc operator_new s :
  compatible sizeof_T sizeof_S ->
  let k := lane_width sizeof_T sizeof_S in
  let rc := rounded_count bits sizeof_T sizeof_S s in
  let ctor := simd_vector_ctor bits sizeof_T sizeof_S aligned_alloc operator_new in
  0 <= s ->
  (s + 2 * k) * sizeof_T <= Int.SIZE_MAX bits ->
  snd (ctor Other s) <> inl alignment_exception /\
  (snd (ctor Other s) = inl bad_alloc <-> operator_new (rc + k) = None) /\
  (forall raw, operator_new (rc + k) = Some raw ->
     exists v, snd (ctor Other s) = inr v /\
       raw_block v = raw /\
       raw <= aligned_begin v < raw + sizeof_S /\
       aligned_begin v mod sizeof_S = 0 /\
       size v = s).
Proof.
  intros Hc k rc ctor Hs Hfit.
  destruct (lane_width_pos _ _ Hc) as [Hk HS]. fold k in Hk, HS.
  pose proof Hc as (HT & HSpos & _).
  assert (Hfit' : s + k <= Int.SIZE_MAX bits) by nia.
  destruct (rounded_count_spec bits sizeof_T sizeof_S s Hc Hs Hfit')
    as (_ & Hrc & _).
  fold k in Hrc. fold rc in Hrc.
  assert (Hbytes : Int.to_size_t bits (rc * sizeof_T) = rc * sizeof_T)
    by (apply to_size_t_small; nia).
  assert (Hreq : Int.to_size_t bits (rc + k) = rc + k)
    by (apply to_size_t_small; nia).
  assert (Hbuf : Int.to_size_t bits ((rc + k) * sizeof_T) = (rc + k) * sizeof_T)
    by (apply to_size_t_small; nia).
  assert (Halign : forall raw, exists p sp,
             std_align sizeof_S (rc * sizeof_T) raw ((rc + k) * sizeof_T) = Some (p, sp) /\
             raw <= p < raw + sizeof_S /\ p mod sizeof_S = 0).
  { intros raw. unfold std_align.
    destruct (align_up_spec sizeof_S raw HSpos) as (Hr & Hm0 & _).
    destruct (Z.leb_spec (rc * sizeof_T) ((rc + k) * sizeof_T)); [|nia].
    destruct (Z.leb_spec ((raw + sizeof_S - 1) / sizeof_S * sizeof_S - raw)
                         ((rc + k) * sizeof_T - rc * sizeof_T)); [|nia].
    simpl. eexists. eexists. split; [reflexivity|]. split; assumption. }
  subst ctor. unfold simd_vector_ctor. fold k rc. rewrite Hreq, Hbuf, Hbytes.
  destruct (operator_new (rc + k)) as [raw|]; simpl.
  - destruct (Halign raw) as (p & sp & Hal & Hp & Hp0). rewrite Hal.
    split; [discriminate|]. split; [split; discriminate|].
    intros raw' Hraw. inversion Hraw; subst raw'.
    eexists. split; [reflexivity|]. simpl. repeat split; try assumption; lia.
  - split; [discriminate|]. split; [split; reflexivity|].
    intros raw Hraw. discriminate.
Qed.

Lemma fallback_alignment_cannot_fail_witness :
  let ctor := simd_vector_ctor 64 1 4 (aligned_alloc_at 0) (operator_new_at 4097) in
  snd (ctor Other 18) <> inl alignment_exception /\
  (snd (ctor Other 18) = inl bad_alloc <->
     operator_new_at 4097 (rounded_count 64 1 4 18 + lane_width 1 4) = None) /\
  (forall raw, operator_new_at 4097 (rounded_count 64 1 4 18 + lane_width 1 4) = Some raw ->
     exists v, snd (ctor Other 18) = inr v /\
       raw_block v = raw /\
       raw <= aligned_begin v < raw + 4 /\
       aligned_begin v mod 4 = 0 /\
       size v = 18).
Proof.
  apply (fallback_alignment_cannot_fail 64 1 4 (aligned_alloc_at 0)
           (operator_new_at 4097) 18).
  - unfold compatible. repeat split; reflexivity.
  - lia.
  - vm_compute. discriminate.
Defined.

(** X10: the destructor releases [raw_block], which is the pointer the
    allocator returned and, in the build without [aligned_alloc], not
    necessarily the aligned start.  Constructing and then destroying a
    container leaves the set of live allocations as it was, with that one
    pointer released; destroying it a second time has no defined behaviour. *)
Theorem destructor_releases_the_allocated_block
    bits sizeof_T sizeof_S aligned_alloc operator_new b s calls v h :
  let k := lane_width sizeof_T sizeof_S in
  let rc := rounded_count bits sizeof_T sizeof_S s in
  simd_vector_ctor bits sizeof_T sizeof_S aligned_alloc operator_new b s
    = (calls, inr v) ->
  raw_block v <> 0 ->
  ~ In (raw_block v) (live h) ->
  match b with
  | GNUC => raw_block v = aligned_alloc sizeof_S (Int.to_size_t bits (rc * sizeof_T))
  | Other => operator_new (Int.to_size_t bits (rc + k)) = Some (raw_block v)
  end /\
  dtor b v (mk_heap (raw_block v :: live h) (freed h))
    = Some (mk_heap (live h) (raw_block v :: freed h)) /\
  dtor b v (mk_heap (live h) (raw_block v :: freed h)) = None.
Proof.
  intros k rc Hv Hnz Hnin. split; [|split].
  - unfold simd_vector_ctor in Hv. fold k rc in Hv. destruct b.
    + destruct (_ =? 0); [discriminate Hv|]. injection Hv as _ <-. reflexivity.
    + destruct (operator_new _) as [raw|]; [|discriminate Hv].
      destruct (std_align _ _ _ _) as [[p sp]|]; [|discriminate Hv].
      injection Hv as _ <-. reflexivity.
  - rewrite dtor_release, release_live; simpl; auto.
    destruct (Z.eq_dec (raw_block v) (raw_block v)) as [_|N]; [|contradiction].
    rewrite notin_remove by assumption. reflexivity.
  - rewrite dtor_release. apply release_dead; assumption.
Qed.

Lemma destructor_releases_the_allocated_block_witness :
  let v := mk_simd_vector 4 4097 4100 4118 18 in
  let h := mk_heap [8192] [] in
  operator_new_at 4097 (Int.to_size_t 64 (rounded_count 64 1 4 18 + lane_width 1 4))
    = Some (raw_block v) /\
  dtor Other v (mk_heap (raw_block v :: live h) (freed h))
    = Some (mk_heap (live h) (raw_block v :: freed h)) /\
  dtor Other v (mk_heap (live h) (raw_block v :: freed h)) = None.
Proof.
  intros v h.
  apply (destructor_releases_the_allocated_block 64 1 4 (aligned_alloc_at 4096)
           (operator_new_at 4097) Other 18
           [call_new 24; call_std_align 4 20 4097 24] v h).
  - reflexivity.
  - vm_compute. discriminate.
  - simpl. intros [E|[]]. discriminate E.
Defined.

(** X11: a moved-from container can be assigned to.  Moving a container out
    with the move constructor and back with move assignment restores it
    field for field; the intermediate owner is left with null pointers, and
    destroying the two, in either order, releases the allocation exactly
    once. *)
Theorem move_out_and_back b (A : simd_vector) (h : heap) :
  raw_block A <> 0 ->
  In (raw_block A) (live h) ->
  let B := fst (move_ctor A) in
  let A' := snd (move_ctor A) in
  let A'' := fst (move_assign A' B) in
  let B' := snd (move_assign A' B) in
  A'' = A /\
  raw_block B' = 0 /\ aligned_begin B' = 0 /\ aligned_end B' = 0 /\
  destroy_both b A'' B' h
    = Some (mk_heap (remove Z.eq_dec (raw_block A) (live h)) (raw_block A :: freed h)) /\
  destroy_both b B' A'' h
    = Some (mk_heap (remove Z.eq_dec (raw_block A) (live h)) (raw_block A :: freed h)).
Proof.
  intros Hnz Hin B A' A'' B'.
  assert (EA : A'' = A) by (destruct A; reflexivity).
  assert (EB : raw_block B' = 0) by reflexivity.
  split; [exact EA|]. split; [exact EB|].
  split; [reflexivity|]. split; [reflexivity|].
  rewrite !destroy_both_release, EA, EB.
  rewrite release_null, release_live by assumption.
  rewrite release_null. split; reflexivity.
Qed.

Lemma move_out_and_back_witness :
  let A := mk_simd_vector 4 4096 4096 4116 20 in
  let h := mk_heap [4096; 8192] [] in
  let B := fst (move_ctor A) in
  let A' := snd (move_ctor A) in
  let A'' := fst (move_assign A' B) in
  let B' := snd (move_assign A' B) in
  A'' = A /\
  raw_block B' = 0 /\ aligned_begin B' = 0 /\ aligned_end B' = 0 /\
  destroy_both GNUC A'' B' h
    = Some (mk_heap (remove Z.eq_dec (raw_block A) (live h)) (raw_block A :: freed h)) /\
  destroy_both GNUC B' A'' h
    = Some (mk_heap (remove Z.eq_dec (raw_block A) (live h)) (raw_block A :: freed h)).
Proof.
  intros A h.
  apply (move_out_and_back GNUC A h).
  - vm_compute. discriminate.
  - simpl. left. reflexivity.
Defined.

(** * Writing through the iterators *)

Section WriteCells.
Context {A : Type}.
Implicit Types (l new : list A).

Lemma length_write_cells lo new l :
  0 <= lo -> lo + Z.of_nat (length new) <= Z.of_nat (length l) ->
  length (write_cells lo new l) = length l.
Proof.
  intros Hlo Hfit. unfold write_cells.
  rewrite !length_app, length_firstn, length_skipn. lia.
Qed.

Lemma nth_error_write_cells_inside lo new l i :
  0 <= lo -> lo + Z.of_nat (length new) <= Z.of_nat (length l) ->
  (i < length new)%nat ->
  nth_error (write_cells lo new l) (Z.to_nat lo + i) = nth_error new i.
Proof.
  intros Hlo Hfit Hi. unfold write_cells.
  rewrite nth_error_app2 by (rewrite length_firstn; lia).
  rewrite length_firstn.
  replace (Z.to_nat lo + i - Nat.min (Z.to_nat lo) (length l))%nat with i by lia.
  apply nth_error_app1. assumption.
Qed.

Lemma nth_error_write_cells_outside lo new l i :
  0 <= lo -> lo + Z.of_nat (length new) <= Z.of_nat (length l) ->
  (i < Z.to_nat lo \/ Z.to_nat lo + length new <= i)%nat ->
  nth_error (write_cells lo new l) i = nth_error l i.
Proof.
  intros Hlo Hfit [Hi|Hi]; unfold write_cells.
  - rewrite nth_error_app1 by (rewrite length_firstn; lia).
    rewrite nth_error_firstn.
    destruct (Nat.ltb_spec i (Z.to_nat lo)); [reflexivity | lia].
  - rewrite nth_error_app2 by (rewrite length_firstn; lia).
    rewrite nth_error_app2 by (rewrite length_firstn; lia).
    rewrite length_firstn, nth_error_skipn. f_equal. lia.
Qed.

Lemma write_cells_extend lo x new l :
  0 <= lo < Z.of_nat (length l) ->
  write_cells (lo + 1) new (write_cells lo [x] l) = write_cells lo (x :: new) l.
Proof.
  intros Hlo. unfold write_cells.
  replace (Z.to_nat (lo + 1)) with (Datatypes.S (Z.to_nat lo)) by lia.
  set (n := Z.to_nat lo).
  assert (Hn : (n < length l)%nat) by lia.
  assert (HL : length (firstn n l) = n) by (rewrite length_firstn; lia).
  simpl length.
  rewrite !(app_assoc (firstn n l) [x]).
  assert (HX : length (firstn n l ++ [x]) = Datatypes.S n)
    by (rewrite length_app, HL; simpl; lia).
  rewrite firstn_app, HX, Nat.sub_diag, firstn_O, app_nil_r.
  rewrite firstn_all2 by lia.
  rewrite skipn_app, HX.
  rewrite (@skipn_all2 A (Datatypes.S n + length new) (firstn n l ++ [x])) by lia.
  rewrite skipn_skipn. rewrite app_nil_l.
  rewrite <- (app_assoc (firstn n l) [x]).
  replace (Datatypes.S n + length new - Datatypes.S n + (n + 1))%nat
    with (n + Datatypes.S (length new))%nat by lia.
  reflexivity.
Qed.

Lemma write_cells_nil lo l : write_cells lo [] l = l.
Proof.
  unfold write_cells. simpl. rewrite Nat.add_0_r. apply firstn_skipn.
Qed.

End WriteCells.

(** X12: writing through the element iterator.  Inside the allocated cells
    [ *it = x ] succeeds, keeps the number of cells, is read back by [ *it ]
    and leaves every other position as it was; outside them both the write
    and the read have no defined result. *)
Theorem store_then_deref (A : Type) (m : memory A) (it : simd_vector_iterator) (x : A) :
  base it = m_base m ->
  (0 <= offset it < Z.of_nat (length (m_cells m)) ->
   exists m',
     store m it x = Ok m' /\
     m_base m' = m_base m /\
     length (m_cells m') = length (m_cells m) /\
     deref m' it = Ok x /\
     (forall it', offset it' <> offset it -> deref m' it' = deref m it')) /\
  (~ (0 <= offset it < Z.of_nat (length (m_cells m))) ->
   store m it x = Fault (ElementOutOfBounds (offset it)) /\
   deref m it = Fault (ElementOutOfBounds (offset it))).
Proof.
  intros Hbase. destruct it as [p o]. simpl in *. subst p. split.
  - intros Ho. unfold store. simpl. rewrite Z.eqb_refl.
    destruct (Z.leb_spec 0 o); [|lia].
    destruct (Z.ltb_spec o (Z.of_nat (length (m_cells m)))); [|lia]. simpl.
    eexists. split; [reflexivity|]. simpl.
    split; [reflexivity|].
    split; [apply length_write_cells; simpl; lia|].
    split.
    + unfold deref. simpl. rewrite Z.eqb_refl.
      destruct (Z.leb_spec 0 o); [|lia].
      pose proof (nth_error_write_cells_inside o [x] (m_cells m) 0) as Hn.
      rewrite Nat.add_0_r in Hn. rewrite Hn by (simpl; lia). reflexivity.
    + intros [p' o'] Hne. simpl in Hne. unfold deref. simpl.
      destruct (p' =? m_base m); [|reflexivity].
      destruct (Z.leb_spec 0 o'); [|reflexivity].
      rewrite nth_error_write_cells_outside by (simpl; lia). reflexivity.
  - intros Ho. unfold store, deref. simpl. rewrite Z.eqb_refl.
    destruct (Z.leb_spec 0 o); simpl; [|split; reflexivity].
    destruct (Z.ltb_spec o (Z.of_nat (length (m_cells m)))); [lia|].
    split; [reflexivity|].
    destruct (nth_error (m_cells m) (Z.to_nat o)) eqn:E; [|reflexivity].
    assert (nth_error (m_cells m) (Z.to_nat o) <> None) by congruence.
    apply nth_error_Some in H1. lia.
Qed.

Lemma store_then_deref_witness :
  let m := mk_memory 4096 [1; 2; 3; 4] in
  let it := iterator 4096 2 in
  (0 <= offset it < Z.of_nat (length (m_cells m)) ->
   exists m',
     store m it 9 = Ok m' /\
     m_base m' = m_base m /\
     length (m_cells m') = length (m_cells m) /\
     deref m' it = Ok 9 /\
     (forall it', offset it' <> offset it -> deref m' it' = deref m it')) /\
  (~ (0 <= offset it < Z.of_nat (length (m_cells m))) ->
   store m it 9 = Fault (ElementOutOfBounds (offset it)) /\
   deref m it = Fault (ElementOutOfBounds (offset it))).
Proof.
  intros m it. apply (store_then_deref Z m it 9). reflexivity.
Defined.

Lemma slice_write_cells {A : Type} (lo : Z) (new l : list A) :
  0 <= lo -> lo + Z.of_nat (length new) <= Z.of_nat (length l) ->
  slice lo (Z.of_nat (length new)) (write_cells lo new l) = new.
Proof.
  intros Hlo Hfit. unfold slice, write_cells. rewrite Nat2Z.id.
  assert (HL : length (firstn (Z.to_nat lo) l) = Z.to_nat lo)
    by (rewrite length_firstn; lia).
  rewrite skipn_app, HL, Nat.sub_diag, skipn_O.
  rewrite (@skipn_all2 A (Z.to_nat lo) (firstn (Z.to_nat lo) l)) by lia.
  rewrite app_nil_l, firstn_app, Nat.sub_diag, firstn_O, app_nil_r.
  apply firstn_all.
Qed.

(** X13: writing a whole lane through the lane iterator.  For an allocated
    lane the write succeeds and keeps the number of cells; reading the lane
    back gives the same cells, each element position of the lane then reads
    the corresponding cell of the written value, and the positions outside
    the lane are unchanged. *)
Theorem store_lane_then_read
    (A S : Type) {EA : Elem A} {SI : du1simd.simd A S} {SL : SimdLaws A S}
    (sizeof_T sizeof_S : Z) (m : memory A)
    (it : simd_vector_simd_iterator) (x : S) :
  let k := lane_width sizeof_T sizeof_S in
  1 <= k ->
  k = Z.of_nat (du1simd.carrier_lanes (A := A) (S := S)) ->
  sbase it = m_base m ->
  0 <= soffset it ->
  soffset it * k + k <= Z.of_nat (length (m_cells m)) ->
  exists m',
    store_lane sizeof_T sizeof_S m it x = Ok m' /\
    length (m_cells m') = length (m_cells m) /\
    (exists x', deref_lane sizeof_T sizeof_S m' it = Ok x' /\
                du1simd.cells_of x' = du1simd.cells_of x) /\
    (forall i, 0 <= i < k ->
       exists v, nth_error (du1simd.cells_of x) (Z.to_nat i) = Some v /\
                 deref m' (iterator (m_base m) (soffset it * k + i)) = Ok v) /\
    (forall it', ~ (soffset it * k <= offset it' < soffset it * k + k) ->
       deref m' it' = deref m it').
Proof.
  intros k Hk Hlanes Hbase Hj Hfit. destruct it as [p j]. simpl in *. subst p.
  assert (Hlx : Z.of_nat (length (du1simd.cells_of x)) = k)
    by (rewrite cells_length; lia).
  unfold store_lane. simpl. fold k. rewrite Z.eqb_refl.
  destruct (Z.leb_spec 0 j); [|lia].
  destruct (Z.leb_spec (j * k + k) (Z.of_nat (length (m_cells m)))); [|lia]. simpl.
  eexists. split; [reflexivity|]. simpl.
  assert (Hlen : length (write_cells (j * k) (du1simd.cells_of x) (m_cells m))
                 = length (m_cells m))
    by (apply length_write_cells; nia).
  split; [exact Hlen|]. split; [|split].
  - destruct (deref_lane_in_bounds sizeof_T sizeof_S
                (mk_memory (m_base m)
                   (write_cells (j * k) (du1simd.cells_of x) (m_cells m)))
                Hlanes Hk j ltac:(lia)
                ltac:(simpl; fold k; rewrite Hlen; lia)) as (x' & Hx' & Hc).
    exists x'. split; [exact Hx'|]. simpl in Hc. fold k in Hc.
    rewrite Hc, <- Hlx. apply slice_write_cells; nia.
  - intros i Hi.
    destruct (nth_error (du1simd.cells_of x) (Z.to_nat i)) as [v|] eqn:E.
    + exists v. split; [reflexivity|].
      unfold deref. simpl. rewrite Z.eqb_refl.
      destruct (Z.leb_spec 0 (j * k + i)); [|nia].
      replace (Z.to_nat (j * k + i)) with (Z.to_nat (j * k) + Z.to_nat i)%nat by nia.
      rewrite nth_error_write_cells_inside by nia. rewrite E. reflexivity.
    + apply nth_error_None in E. lia.
  - intros [p' o'] Hout. simpl in Hout. unfold deref. simpl.
    destruct (p' =? m_base m); [|reflexivity].
    destruct (Z.leb_spec 0 o'); [|reflexivity].
    rewrite nth_error_write_cells_outside by nia. reflexivity.
Qed.

Lemma store_lane_then_read_witness :
  let m := mk_memory 4096 [0; 1; 2; 3; 4; 5; 6; 7] in
  let it := simd_it 4096 1 in
  let x := du1simd.mk_m128 5 5 5 5 in
  exists m',
    store_lane 1 4 m it x = Ok m' /\
    length (m_cells m') = length (m_cells m) /\
    (exists x', deref_lane 1 4 m' it = Ok x' /\
                du1simd.cells_of x' = du1simd.cells_of x) /\
    (forall i, 0 <= i < lane_width 1 4 ->
       exists v, nth_error (du1simd.cells_of x) (Z.to_nat i) = Some v /\
                 deref m' (iterator (m_base m) (soffset it * lane_width 1 4 + i)) = Ok v) /\
    (forall it', ~ (soffset it * lane_width 1 4 <= offset it'
                    < soffset it * lane_width 1 4 + lane_width 1 4) ->
       deref m' it' = deref m it').
Proof.
  intros m it x.
  apply (store_lane_then_read Z (du1simd.m128 Z) 1 4 m it x).
  - vm_compute. discriminate.
  - reflexivity.
  - reflexivity.
  - simpl. lia.
  - vm_compute. discriminate.
Defined.

(** * Filling a container *)

Lemma length_produced {A G : Type} (gen : G -> A * G) n :
  forall g, length (fst (produced n gen g)) = n.
Proof.
  induction n as [|n IH]; intros g; simpl; [reflexivity|].
  destruct (gen g) as [x g']. specialize (IH g').
  destruct (produced n gen g') as [l g'']. simpl in *. lia.
Qed.

Lemma generate_spec {A G : Type} bits (gen : G -> A * G) p e :
  1 <= bits -> e <= Int.PTRDIFF_MAX bits ->
  forall fuel cells b g,
    0 <= b <= e -> e <= Z.of_nat (length cells) ->
    (Z.to_nat (e - b) < fuel)%nat ->
    generate bits fuel (mk_memory p cells) (iterator p b) (iterator p e) gen g
      = Ok (mk_memory p (write_cells b (fst (produced (Z.to_nat (e - b)) gen g)) cells),
            snd (produced (Z.to_nat (e - b)) gen g)).
Proof.
  intros Hbits He. induction fuel as [|fuel IH]; intros cells b g Hb Hlen Hf; [lia|].
  simpl. rewrite it_neq_same_base.
  destruct (Z.eqb_spec b e) as [->|Hne]; simpl.
  - rewrite Z.sub_diag. simpl. rewrite write_cells_nil. reflexivity.
  - replace (Z.to_nat (e - b)) with (Datatypes.S (Z.to_nat (e - (b + 1)))) by lia.
    simpl. destruct (gen g) as [x g'].
    unfold store. simpl. rewrite Z.eqb_refl.
    destruct (Z.leb_spec 0 b); [|lia].
    destruct (Z.ltb_spec b (Z.of_nat (length cells))); [|lia]. simpl.
    unfold it_incr. simpl.
    rewrite to_ptrdiff_t_small
      by (try assumption; unfold Int.PTRDIFF_MIN, Int.PTRDIFF_MAX in *; lia).
    rewrite IH; try lia.
    + destruct (produced (Z.to_nat (e - (b + 1))) gen g') as [l g'']. simpl.
      rewrite write_cells_extend by lia. reflexivity.
    + rewrite length_write_cells by (simpl; lia). lia.
Qed.

(** X14: [std::generate] over a range of a buffer terminates, calls the
    generator once per position in order, stores the values it returns at
    the positions [[b, e)], and leaves every cell outside the range, the
    padding behind [end()] included, as it was. *)
Theorem generate_overwrites_exactly_the_range
    (A G : Type) bits (m : memory A) (gen : G -> A * G) (g : G)
    (fuel : nat) (b e : Z) :
  1 <= bits ->
  Z.of_nat (length (m_cells m)) <= Int.PTRDIFF_MAX bits ->
  0 <= b <= e -> e <= Z.of_nat (length (m_cells m)) ->
  (Z.to_nat (e - b) < fuel)%nat ->
  let values := fst (produced (Z.to_nat (e - b)) gen g) in
  exists m',
    generate bits fuel m (iterator (m_base m) b) (iterator (m_base m) e) gen g
      = Ok (m', snd (produced (Z.to_nat (e - b)) gen g)) /\
    m_base m' = m_base m /\
    length (m_cells m') = length (m_cells m) /\
    length values = Z.to_nat (e - b) /\
    (forall i, (i < Z.to_nat (e - b))%nat ->
       nth_error (m_cells m') (Z.to_nat b + i) = nth_error values i) /\
    (forall i, (i < Z.to_nat b \/ Z.to_nat e <= i)%nat ->
       nth_error (m_cells m') i = nth_error (m_cells m) i).
Proof.
  intros Hbits Hmax Hb He Hf values. destruct m as [p cells]. simpl in *.
  pose proof (length_produced gen (Z.to_nat (e - b)) g) as Hlv. fold values in Hlv.
  eexists. split; [apply generate_spec; try assumption; lia|]. simpl.
  fold values.
  split; [reflexivity|].
  split; [apply length_write_cells; lia|].
  split; [exact Hlv|]. split.
  - intros i Hi. apply nth_error_write_cells_inside; lia.
  - intros i Hi. apply nth_error_write_cells_outside; lia.
Qed.

Lemma generate_overwrites_exactly_the_range_witness :
  let m := mk_memory 4096 [0; 0; 0; 0; 0; 0; 0; 0] in
  let values := fst (produced (Z.to_nat (6 - 1)) (gen_step 1) 0) in
  exists m',
    generate 64 8 m (iterator (m_base m) 1) (iterator (m_base m) 6) (gen_step 1) 0
      = Ok (m', snd (produced (Z.to_nat (6 - 1)) (gen_step 1) 0)) /\
    m_base m' = m_base m /\
    length (m_cells m') = length (m_cells m) /\
    length values = Z.to_nat (6 - 1) /\
    (forall i, (i < Z.to_nat (6 - 1))%nat ->
       nth_error (m_cells m') (Z.to_nat 1 + i) = nth_error values i) /\
    (forall i, (i < Z.to_nat 1 \/ Z.to_nat 6 <= i)%nat ->
       nth_error (m_cells m') i = nth_error (m_cells m) i).
Proof.
  intros m.
  apply (generate_overwrites_exactly_the_range Z Z 64 m (gen_step 1) 0 8 1 6).
  - lia.
  - vm_compute. discriminate.
  - lia.
  - vm_compute. discriminate.
  - vm_compute. lia.
Defined.

(** * The lane walk of [iterator_test] *)

Lemma traverse_lanes_offsets bits p e fuel :
  1 <= bits -> e <= Int.PTRDIFF_MAX bits ->
  forall b, 0 <= b <= e -> (Z.to_nat (e - b) < fuel)%nat ->
  traverse_lanes bits fuel (simd_it p b) (simd_it p e)
    = Ok (map Z.of_nat (seq (Z.to_nat b) (Z.to_nat (e - b)))).
Proof.
  intros Hb He. induction fuel as [|fuel IH]; intros b Hbe Hf; [lia|].
  simpl. unfold sit_neq. simpl. rewrite Z.eqb_refl. simpl.
  destruct (Z.eqb_spec b e) as [->|Hne]; simpl.
  - rewrite Z.sub_diag. reflexivity.
  - unfold sit_incr; simpl.
    rewrite to_ptrdiff_t_small
      by (try assumption; unfold Int.PTRDIFF_MIN, Int.PTRDIFF_MAX in *; lia).
    rewrite IH by lia. simpl.
    replace (Z.to_nat (e - b)) with (Datatypes.S (Z.to_nat (e - (b + 1)))) by lia.
    simpl. rewrite Z2Nat.id by lia.
    replace (Z.to_nat (b + 1)) with (Datatypes.S (Z.to_nat b)) by lia.
    reflexivity.
Qed.

(** X16: walking the lane iterator from [begin().lower_block()] to
    [end().lower_block()] terminates and visits the lanes [0 .. s/k - 1] in
    order.  Every visited lane lies wholly inside the logical elements, so
    the walk never touches the padding; when [s] is not a multiple of [k]
    the last [s % k] elements are in no visited lane. *)
Theorem lane_walk_visits_the_full_lanes bits sizeof_T sizeof_S (v : simd_vector) fuel :
  let k := lane_width sizeof_T sizeof_S in
  let s := content_size v in
  1 <= bits -> 1 <= k ->
  0 <= s <= Int.PTRDIFF_MAX bits ->
  (Z.to_nat (s / k) < fuel)%nat ->
  traverse_lanes bits fuel (lower_block sizeof_T sizeof_S (begin_ v))
                 (lower_block sizeof_T sizeof_S (end_ bits v))
    = Ok (offsets_upto (s / k)) /\
  (forall j, In j (offsets_upto (s / k)) -> 0 <= j * k /\ j * k + k <= s) /\
  (forall i, s / k * k <= i < s ->
     forall j, In j (offsets_upto (s / k)) -> ~ (j * k <= i < j * k + k)).
Proof.
  intros k s Hbits Hk Hs Hf.
  pose proof (Z.div_mod s k ltac:(lia)) as Hd.
  pose proof (Z.mod_pos_bound s k ltac:(lia)) as Hm.
  assert (Hq : 0 <= s / k <= s).
  { split; [apply Z.div_pos; lia|]. apply Z.div_le_upper_bound; [lia | nia]. }
  split; [|split].
  - unfold lower_block, begin_, end_. simpl. fold k. fold s.
    rewrite (to_ptrdiff_t_small bits s)
      by (try assumption; unfold Int.PTRDIFF_MIN, Int.PTRDIFF_MAX in *; lia).
    rewrite !quot_div_nonneg by lia. rewrite Z.div_0_l by lia.
    rewrite traverse_lanes_offsets by (try assumption; lia).
    rewrite Z.sub_0_r. reflexivity.
  - intros j Hj. apply in_offsets_upto in Hj. nia.
  - intros i Hi j Hj. apply in_offsets_upto in Hj. nia.
Qed.

Lemma lane_walk_visits_the_full_lanes_witness :
  let v := mk_simd_vector 4 4096 4096 (4096 + 18) 18 in
  traverse_lanes 64 5 (lower_block 1 4 (begin_ v)) (lower_block 1 4 (end_ 64 v))
    = Ok (offsets_upto (content_size v / lane_width 1 4)) /\
  (forall j, In j (offsets_upto (content_size v / lane_width 1 4)) ->
     0 <= j * lane_width 1 4 /\ j * lane_width 1 4 + lane_width 1 4 <= content_size v) /\
  (forall i, content_size v / lane_width 1 4 * lane_width 1 4 <= i < content_size v ->
     forall j, In j (offsets_upto (content_size v / lane_width 1 4)) ->
       ~ (j * lane_width 1 4 <= i < j * lane_width 1 4 + lane_width 1 4)).
Proof.
  intros v.
  apply (lane_walk_visits_the_full_lanes 64 1 4 v 5).
  - lia.
  - vm_compute. discriminate.
  - vm_compute. split; discriminate.
  - vm_compute. lia.
Defined.

(** * Edge behaviour of the masks and of the plain loop *)

(** X17: the masks of [simd<float, __m128>] at their edges.  Gap [0] is the
    identity for either mask; a start gap outside [[0, 4)] or an end gap
    outside [(-4, 0]] fails the assertion; inside those ranges the two
    masks commute, and when the start gap lies beyond the last index the end
    gap keeps ([lgap > ugap + 3]) nothing is left of the lane. *)
Theorem packed_masks_at_the_edges (A : Type) {EA : Elem A}
    (a : du1simd.m128 A) (lgap ugap : Z) :
  (du1simd.packed_mask_lower a 0 = Ok a /\
   du1simd.packed_mask_upper a 0 = Ok a /\
   du1simd.packed_mask_both a 0 0 = Ok a) /\
  (~ (0 <= lgap < 4) ->
   du1simd.packed_mask_lower a lgap = Fault AssertionFailed /\
   du1simd.packed_mask_both a lgap ugap = Fault AssertionFailed) /\
  (~ (-4 < ugap <= 0) ->
   du1simd.packed_mask_upper a ugap = Fault AssertionFailed /\
   du1simd.packed_mask_both a lgap ugap = Fault AssertionFailed) /\
  (0 <= lgap < 4 -> -4 < ugap <= 0 ->
   du1simd.packed_mask_both a lgap ugap
     = (y <- du1simd.packed_mask_upper a ugap ;; du1simd.packed_mask_lower y lgap) /\
   (ugap + 3 < lgap ->
    du1simd.packed_mask_both a lgap ugap = Ok du1simd._mm_setzero_ps)).
Proof.
  destruct a as [a0 a1 a2 a3].
  split; [repeat split; reflexivity|]. split; [|split].
  - intros Hl. unfold du1simd.packed_mask_both, du1simd.packed_mask_lower.
    rewrite Z.geb_leb.
    destruct (Z.leb_spec 0 lgap); simpl; [|split; reflexivity].
    destruct (Z.ltb_spec lgap 4); simpl; [lia | split; reflexivity].
  - intros Hu.
    assert (Hup : forall x : du1simd.m128 A,
               du1simd.packed_mask_upper x ugap = Fault AssertionFailed).
    { intros x. unfold du1simd.packed_mask_upper. rewrite Z.gtb_ltb.
      destruct (Z.ltb_spec (-4) ugap); simpl; [|reflexivity].
      destruct (Z.leb_spec ugap 0); simpl; [lia | reflexivity]. }
    split; [apply Hup|].
    unfold du1simd.packed_mask_both.
    destruct (du1simd.packed_mask_lower _ lgap) as [x|f] eqn:E; simpl.
    + apply Hup.
    + unfold du1simd.packed_mask_lower in E. rewrite Z.geb_leb in E.
      destruct (0 <=? lgap); simpl in E; [|congruence].
      destruct (lgap <? 4); simpl in E; congruence.
  - intros Hl Hu.
    assert (Hcl : lgap = 0 \/ lgap = 1 \/ lgap = 2 \/ lgap = 3) by lia.
    assert (Hcu : ugap = 0 \/ ugap = -1 \/ ugap = -2 \/ ugap = -3) by lia.
    destruct Hcl as [-> | [-> | [-> | ->]]];
      destruct Hcu as [-> | [-> | [-> | ->]]];
      (split; [reflexivity | intros H; try lia; reflexivity]).
Qed.

(** X18: [tester::sum] on a reversed range.  When [e] is before [b] the
    loop condition [b != e] never becomes false inside the buffer: the loop
    reads every cell from [b] to the last allocated one and then
    dereferences the position one past it. *)
Theorem sum_of_reversed_range_leaves_the_buffer
    (A : Type) {EA : Elem A} bits (m : memory A) (fuel : nat) (b e : Z) :
  1 <= bits ->
  Z.of_nat (length (m_cells m)) <= Int.PTRDIFF_MAX bits ->
  0 <= e < b -> b <= Z.of_nat (length (m_cells m)) ->
  (Z.to_nat (Z.of_nat (length (m_cells m)) - b) < fuel)%nat ->
  du1example.sum bits fuel m (iterator (m_base m) b) (iterator (m_base m) e)
    = Fault (ElementOutOfBounds (Z.of_nat (length (m_cells m)))).
Proof.
  intros Hbits Hmax He Hb Hf. unfold du1example.sum.
  generalize (ezero : A) as acc. revert b He Hb Hf.
  induction fuel as [|fuel IH]; intros b He Hb Hf acc; [lia|].
  simpl. rewrite it_neq_same_base.
  destruct (Z.eqb_spec b e) as [|_]; [lia|]. simpl.
  unfold deref. simpl. rewrite Z.eqb_refl.
  destruct (Z.leb_spec 0 b); [|lia].
  destruct (nth_error (m_cells m) (Z.to_nat b)) as [x|] eqn:E; simpl.
  - assert (Hlt : (Z.to_nat b < length (m_cells m))%nat)
      by (apply nth_error_Some; congruence).
    unfold it_incr. simpl.
    rewrite to_ptrdiff_t_small
      by (try assumption; unfold Int.PTRDIFF_MIN, Int.PTRDIFF_MAX in *; lia).
    apply IH; lia.
  - apply nth_error_None in E. f_equal. f_equal. lia.
Qed.

Lemma sum_of_reversed_range_leaves_the_buffer_witness :
  let m := mk_memory 4096 [1; 2; 3; 4] in
  du1example.sum 64 4 m (iterator (m_base m) 2) (iterator (m_base m) 1)
    = Fault (ElementOutOfBounds (Z.of_nat (length (m_cells m)))).
Proof.
  intros m.
  apply (sum_of_reversed_range_leaves_the_buffer Z 64 m 4 2 1).
  - lia.
  - vm_compute. discriminate.
  - lia.
  - vm_compute. discriminate.
  - vm_compute. lia.
Defined.

(** * The lane mapping at any offset *)

(** X19: the lane index and the start gap always recompose to the offset,
    and the end gap is the start gap minus [k - 1].  At a non-negative
    offset the lane is [offset / k] rounded down and the gap is in
    [[0, k)]; at a negative offset the C++ division truncates towards zero,
    so the gap is in [(-k, 0]] and, unless the offset is a multiple of [k],
    the lane is one above the rounded-down quotient. *)
Theorem lane_mapping_recomposes sizeof_T sizeof_S (it : simd_vector_iterator) :
  let k := lane_width sizeof_T sizeof_S in
  1 <= k ->
  offset it = soffset (lower_block sizeof_T sizeof_S it) * k
              + lower_offset sizeof_T sizeof_S it /\
  upper_offset sizeof_T sizeof_S it = lower_offset sizeof_T sizeof_S it - (k - 1) /\
  (0 <= offset it ->
   0 <= lower_offset sizeof_T sizeof_S it < k /\
   soffset (lower_block sizeof_T sizeof_S it) = offset it / k) /\
  (offset it < 0 ->
   - k < lower_offset sizeof_T sizeof_S it <= 0 /\
   (offset it mod k <> 0 ->
    soffset (lower_block sizeof_T sizeof_S it) = offset it / k + 1 /\
    lower_offset sizeof_T sizeof_S it = offset it mod k - k)).
Proof.
  intros k Hk. destruct it as [p o].
  unfold lower_block, lower_offset, upper_offset. simpl. fold k.
  pose proof (Z.quot_rem' o k) as Hqr.
  pose proof (Z.div_mod o k ltac:(lia)) as Hd.
  pose proof (Z.mod_pos_bound o k ltac:(lia)) as Hm.
  split; [lia|]. split; [reflexivity|]. split.
  - intros Ho. rewrite quot_div_nonneg, rem_mod_nonneg by lia. lia.
  - intros Ho.
    pose proof (Z.rem_bound_pos_neg o k ltac:(lia) ltac:(lia)) as Hr.
    split; [lia|]. intros Hne.
    assert (Hkd : k * (o ÷ k - o / k) = o mod k - Z.rem o k) by lia.
    assert (Hone : o ÷ k - o / k = 1) by nia.
    split; nia.
Qed.

Lemma lane_mapping_recomposes_witness :
  let it := iterator 4096 (-5) in
  offset it = soffset (lower_block 1 4 it) * lane_width 1 4 + lower_offset 1 4 it /\
  upper_offset 1 4 it = lower_offset 1 4 it - (lane_width 1 4 - 1) /\
  (0 <= offset it ->
   0 <= lower_offset 1 4 it < lane_width 1 4 /\
   soffset (lower_block 1 4 it) = offset it / lane_width 1 4) /\
  (offset it < 0 ->
   - lane_width 1 4 < lower_offset 1 4 it <= 0 /\
   (offset it mod lane_width 1 4 <> 0 ->
    soffset (lower_block 1 4 it) = offset it / lane_width 1 4 + 1 /\
    lower_offset 1 4 it = offset it mod lane_width 1 4 - lane_width 1 4)).
Proof.
  apply (lane_mapping_recomposes 1 4 (iterator 4096 (-5))).
  vm_compute. discriminate.
Defined.

(** X20: with one element per carrier ([k = 1], the struct
    [simd<float, float>]) every position is its own lane and both gaps are
    [0], so the masks of the struct, which assert a zero gap, always pass on
    gaps computed by the iterators; any other gap fails the assertion. *)
Theorem scalar_carrier_gaps_are_zero (A : Type) {EA : Elem A}
    sizeof_T sizeof_S (it : simd_vector_iterator) (a : A) (g : Z) :
  lane_width sizeof_T sizeof_S = 1 ->
  lower_offset sizeof_T sizeof_S it = 0 /\
  upper_offset sizeof_T sizeof_S it = 0 /\
  soffset (lower_block sizeof_T sizeof_S it) = offset it /\
  du1simd.scalar_mask_both a (lower_offset sizeof_T sizeof_S it)
                           (upper_offset sizeof_T sizeof_S it) = Ok a /\
  (g <> 0 ->
   du1simd.scalar_mask_lower a g = Fault AssertionFailed /\
   du1simd.scalar_mask_upper a g = Fault AssertionFailed /\
   du1simd.scalar_mask_both a g 0 = Fault AssertionFailed /\
   du1simd.scalar_mask_both a 0 g = Fault AssertionFailed).
Proof.
  intros Hk. unfold lower_offset, upper_offset, lower_block. simpl. rewrite Hk.
  rewrite Z.rem_1_r, Z.quot_1_r.
  repeat split; try reflexivity;
    unfold du1simd.scalar_mask_lower, du1simd.scalar_mask_upper,
      du1simd.scalar_mask_both;
    destruct (Z.eqb_spec g 0); try contradiction; reflexivity.
Qed.

Lemma scalar_carrier_gaps_are_zero_witness :
  let it := iterator 4096 7 in
  lower_offset 4 4 it = 0 /\
  upper_offset 4 4 it = 0 /\
  soffset (lower_block 4 4 it) = offset it /\
  du1simd.scalar_mask_both 9 (lower_offset 4 4 it) (upper_offset 4 4 it) = Ok 9 /\
  (2 <> 0 ->
   du1simd.scalar_mask_lower 9 2 = Fault AssertionFailed /\
   du1simd.scalar_mask_upper 9 2 = Fault AssertionFailed /\
   du1simd.scalar_mask_both 9 2 0 = Fault AssertionFailed /\
   du1simd.scalar_mask_both 9 0 2 = Fault AssertionFailed).
Proof.
  apply (scalar_carrier_gaps_are_zero Z 4 4 (iterator 4096 7) 9 2). reflexivity.
Defined.


